(** * ngg::mpsc_queue — a shallow embedding and its properties

    The development follows [include/mpsc_queue.hpp]: a singly linked chain
    of heap nodes bounded by two cursors, [m_head] (newest node, swung by
    producers with one atomic exchange) and [m_tail] (the retired sentinel,
    advanced by the single consumer).

    Memory is modelled the way the code uses it: storage is obtained from
    and returned to a node allocator, objects are constructed into and
    destroyed out of that storage, and every dereference needs a live
    object.  Anything else is undefined behaviour and shows up as the
    [Undefined] outcome.

    The definitions come first: the machine, the member functions, the
    threads that run them one atomic step at a time, and the instances used
    for concrete runs.  The properties follow: what each member function
    does to a well-formed chain, single-threaded executions, interleaved
    executions, the overloads of [push], and concrete runs. *)

From stdpp Require Import gmap list sets fin_maps.

#[local] Set Warnings "-clear-no-such-hyp".

(** ** Pointers *)

(** A [node *] is an address; [nullptr] is address zero. *)
Definition ptr := N.
Definition nullptr : ptr := 0%N.

(** ** The element type

    [types::default_constructible T]: the sentinel's [data()] member needs a
    default value.  Copy and move construction hand the value over
    unchanged; [moved_from v] is the valid but unspecified state that
    [std::move] leaves in the source object (the identity for [int]). *)
Class ValueType (T : Type) := {
  default_value : T;
  moved_from : T → T;
}.

(** ** The allocator

    [types::minimal_allocator_type]: [allocate(n)] and [deallocate(p, n)],
    always called with [n = 1] by the queue.  [allocate] either hands out a
    block or fails (std::allocator throws std::bad_alloc); both change the
    allocator's own state.  [live] is the set of blocks handed out and not
    yet given back. *)
Class Allocator (A : Type) := {
  allocate : A → option ptr * A;
  deallocate : ptr → A → A;
  live : A → gset ptr;
}.

(** What every allocator promises: a block handed out is not null and not
    already in use, a failed call hands out nothing, and a returned block is
    no longer in use. *)
Class AllocatorLaws (A : Type) {AL : Allocator A} := {
  allocate_fresh a p a' :
    allocate a = (Some p, a') →
    p ≠ nullptr ∧ (p ∉ live a) ∧ live a' = {[p]} ∪ live a;
  allocate_fail a a' :
    allocate a = (None, a') → live a' = live a;
  deallocate_live p a :
    live (deallocate p a) = live a ∖ {[p]};
}.

(** Calls made through [node_allocator_traits], in program order.  This is
    the instrumentation used to count allocations and deallocations. *)
Inductive call :=
  | Allocate (p : ptr)
  | Construct (p : ptr)
  | Destroy (p : ptr)
  | Deallocate (p : ptr).

Global Instance call_eq_dec : EqDecision call.
Proof. solve_decision. Defined.

Definition is_allocate (c : call) : bool :=
  match c with Allocate _ => true | _ => false end.
Definition is_deallocate (c : call) : bool :=
  match c with Deallocate _ => true | _ => false end.

Definition count_allocate (cs : list call) : nat :=
  length (filter (λ c, is_allocate c = true) cs).
Definition count_deallocate (cs : list call) : nat :=
  length (filter (λ c, is_deallocate c = true) cs).

(** Replays a call log and returns the blocks still outstanding, or [None]
    when the log deallocates a block that is not outstanding (a double free,
    or a free of something never allocated) or allocates one that is. *)
Fixpoint outstanding_from (s : gset ptr) (cs : list call) : option (gset ptr) :=
  match cs with
  | [] => Some s
  | Allocate p :: cs =>
      if decide (p ∈ s) then None else outstanding_from ({[p]} ∪ s) cs
  | Deallocate p :: cs =>
      if decide (p ∈ s) then outstanding_from (s ∖ {[p]}) cs else None
  | _ :: cs => outstanding_from s cs
  end.
Definition outstanding (cs : list call) : option (gset ptr) :=
  outstanding_from ∅ cs.

(** ** Nodes, the queue and the machine state *)

Section machine.
Context {T : Type} {VT : ValueType T} {A : Type} {AL : Allocator A}.

(** [struct node { T data; atomic_node next; }] *)
Record node := Node { data : T; next : ptr }.

(** The constructors of [node] that the queue uses. *)
Definition node_with (next : ptr) (value : T) : node := Node value next.
Definition node_default (next : ptr) : node := Node default_value next.

(** The queue's members together with the memory they point into: [heap]
    holds the constructed nodes, [calls] the log of allocator-traits calls. *)
Record state := State {
  heap : gmap ptr node;
  m_head : ptr;
  m_tail : ptr;
  m_node_alloc : A;
  calls : list call;
}.

Definition set_heap (h : gmap ptr node) (σ : state) : state :=
  State h (m_head σ) (m_tail σ) (m_node_alloc σ) (calls σ).
Definition set_head (p : ptr) (σ : state) : state :=
  State (heap σ) p (m_tail σ) (m_node_alloc σ) (calls σ).
Definition set_tail (p : ptr) (σ : state) : state :=
  State (heap σ) (m_head σ) p (m_node_alloc σ) (calls σ).
Definition set_alloc (a : A) (σ : state) : state :=
  State (heap σ) (m_head σ) (m_tail σ) a (calls σ).
Definition log (c : call) (σ : state) : state :=
  State (heap σ) (m_head σ) (m_tail σ) (m_node_alloc σ) (calls σ ++ [c]).

(** ** Outcomes of a member function

    [Ok x σ]: returned [x] in state [σ].  [Throw σ]: an exception
    (std::bad_alloc) left the call in state [σ].  [Undefined]: undefined
    behaviour.  [Diverges]: the loop budget ran out. *)
Inductive result (X : Type) :=
  | Ok (x : X) (σ : state)
  | Throw (σ : state)
  | Undefined
  | Diverges.
Arguments Ok {X} x σ.
Arguments Throw {X} σ.
Arguments Undefined {X}.
Arguments Diverges {X}.

Definition M (X : Type) : Type := state → result X.

Definition ret {X} (x : X) : M X := λ σ, Ok x σ.
Definition bind {X Y} (m : M X) (k : X → M Y) : M Y := λ σ,
  match m σ with
  | Ok x σ' => k x σ'
  | Throw σ' => Throw σ'
  | Undefined => Undefined
  | Diverges => Diverges
  end.

End machine.

Arguments Ok {T A X} x σ.
Arguments Throw {T A X} σ.
Arguments Undefined {T A X}.
Arguments Diverges {T A X}.

Declare Scope queue_scope.
Delimit Scope queue_scope with Q.
Notation "'let*' x ':=' m 'in' k" := (bind m (λ x, k))
  (at level 10, x name, m at level 100, k at level 200,
   format "'[v' 'let*'  x  ':='  m  'in' '/' k ']'") : queue_scope.
Notation "m ';;' k" := (bind m (λ _, k))
  (at level 100, k at level 200, right associativity) : queue_scope.
Local Open Scope queue_scope.

Section queue.
Context {T : Type} {VT : ValueType T} {A : Type} {AL : Allocator A}.

Abbreviation state := (state (T:=T) (A:=A)).
Abbreviation node := (node (T:=T)).
Abbreviation M := (M (T:=T) (A:=A)).

(** ** Primitive steps: one allocator call or one memory access each *)

(** [node_allocator_traits::allocate(m_node_alloc, 1)] *)
Definition allocate_node : M ptr := λ σ,
  match allocate (m_node_alloc σ) with
  | (Some p, a) => Ok p (log (Allocate p) (set_alloc a σ))
  | (None, a) => Throw (set_alloc a σ)
  end.

(** [node_allocator_traits::construct(m_node_alloc, p, args...)]: placement
    new into storage the allocator handed out. *)
Definition construct (p : ptr) (n : node) : M unit := λ σ,
  if decide (p ∈ live (m_node_alloc σ))
  then Ok tt (log (Construct p) (set_heap (<[p := n]> (heap σ)) σ))
  else Undefined.

(** [node_allocator_traits::destroy(m_node_alloc, p)] *)
Definition destroy (p : ptr) : M unit := λ σ,
  match heap σ !! p with
  | Some _ => Ok tt (log (Destroy p) (set_heap (delete p (heap σ)) σ))
  | None => Undefined
  end.

(** [node_allocator_traits::deallocate(m_node_alloc, p, 1)] *)
Definition deallocate_node (p : ptr) : M unit := λ σ,
  if decide (p ∈ live (m_node_alloc σ))
  then Ok tt (log (Deallocate p) (set_alloc (deallocate p (m_node_alloc σ)) σ))
  else Undefined.

(** [m_head.load()], [m_tail.load()], [m_head.store(p)], [m_tail.store(p)] *)
Definition load_head : M ptr := λ σ, Ok (m_head σ) σ.
Definition load_tail : M ptr := λ σ, Ok (m_tail σ) σ.
Definition store_head (p : ptr) : M unit := λ σ, Ok tt (set_head p σ).
Definition store_tail (p : ptr) : M unit := λ σ, Ok tt (set_tail p σ).

(** [m_head.exchange(p)] *)
Definition exchange_head (p : ptr) : M ptr := λ σ, Ok (m_head σ) (set_head p σ).

(** [p->next.load()] *)
Definition load_next (p : ptr) : M ptr := λ σ,
  match heap σ !! p with
  | Some n => Ok (next n) σ
  | None => Undefined
  end.

(** [p->next.store(q)] *)
Definition store_next (p q : ptr) : M unit := λ σ,
  match heap σ !! p with
  | Some n => Ok tt (set_heap (<[p := Node (data n) q]> (heap σ)) σ)
  | None => Undefined
  end.

(** [std::move(p->data)] used to initialise a [T]: yields the value and
    leaves the node's member in its moved-from state. *)
Definition move_data (p : ptr) : M T := λ σ,
  match heap σ !! p with
  | Some n =>
      Ok (data n) (set_heap (<[p := Node (moved_from (data n)) (next n)]> (heap σ)) σ)
  | None => Undefined
  end.

(** ** Member functions *)

(** The members before the constructor body runs: [m_node_alloc()] in state
    [a], and the two atomics value-initialised. *)
Definition raw (a : A) : state := State ∅ nullptr nullptr a [].

(** [mpsc_queue ()] *)
Definition mpsc_queue : M unit :=
  let* dummy := allocate_node in
  construct dummy (node_default nullptr);;
  store_head dummy;;
  store_tail dummy.

(** [void push_impl (T &&value)] *)
Definition push_impl (value : T) : M unit :=
  let* new_node := allocate_node in
  construct new_node (node_with nullptr value);;
  let* prev_head := exchange_head new_node in
  store_next prev_head new_node.

(** [void push (const T &value)]: [push_impl(T(value))], the temporary holds
    a copy of the argument. *)
Definition push (value : T) : M unit := push_impl value.

(** [std::optional<T> pull ()] *)
Definition pull : M (option T) :=
  let* tail_ptr := load_tail in
  let* next := load_next tail_ptr in
  if decide (next = nullptr) then ret None
  else
    let* result := move_data next in
    store_tail next;;
    destroy tail_ptr;;
    deallocate_node tail_ptr;;
    ret (Some result).

(** The [while (true)] loop of [clear], with [tail_ptr] as its variable.
    Each turn destroys a node, so the number of live nodes bounds the number
    of turns; [fuel] is that budget. *)
Fixpoint clear_loop (fuel : nat) (tail_ptr : ptr) : M unit :=
  match fuel with
  | O => λ _, Diverges
  | S fuel =>
      let* next := load_next tail_ptr in
      if decide (next = nullptr) then ret tt
      else
        store_tail next;;
        destroy tail_ptr;;
        deallocate_node tail_ptr;;
        clear_loop fuel next
  end.

(** [void clear ()] *)
Definition clear : M unit := λ σ,
  (let* tail_ptr := load_tail in
   clear_loop (S (size (heap σ))) tail_ptr) σ.

(** [~mpsc_queue ()] *)
Definition destructor : M unit :=
  clear;;
  let* h := load_head in
  destroy h;;
  let* t := load_tail in
  deallocate_node t.

End queue.

(** ** The chain of nodes behind a queue state *)

Section model.
Context {T : Type} {VT : ValueType T} {A : Type} {AL : Allocator A}.

Abbreviation state := (state (T:=T) (A:=A)).
Abbreviation node := (node (T:=T)).
Abbreviation M := (M (T:=T) (A:=A)).

(** The heap of a chain that starts at node [p] holding [d] and continues
    through [items], each linked to the next, the last one to [nullptr]. *)
Fixpoint chain_heap (p : ptr) (d : T) (items : list (ptr * T)) : gmap ptr node :=
  match items with
  | [] => {[ p := Node d nullptr ]}
  | (q, v) :: items => <[ p := Node d q ]> (chain_heap q v items)
  end.

(** The last node of the chain and what it holds. *)
Definition chain_last (p : ptr) (d : T) (items : list (ptr * T)) : ptr * T :=
  default (p, d) (last items).

(** The allocator calls made when the consumer retires the nodes [ps]. *)
Definition retire_calls (ps : list ptr) : list call :=
  ps ≫= λ p, [Destroy p; Deallocate p].

(** [is_queue σ p d items]: in [σ] the sentinel is [p] (holding the stale
    value [d]) and the unconsumed elements are [items], oldest first, each
    with the node that carries it. *)
Record is_queue (σ : state) (p : ptr) (d : T) (items : list (ptr * T)) : Prop := {
  iq_tail : m_tail σ = p;
  iq_head : m_head σ = (chain_last p d items).1;
  iq_heap : heap σ = chain_heap p d items;
  iq_nodup : NoDup (p :: items.*1);
  iq_nonnull : nullptr ∉ p :: items.*1;
  iq_live : ∀ q, q ∈ p :: items.*1 → q ∈ live (m_node_alloc σ);
  iq_calls : outstanding (calls σ) = Some (list_to_set (p :: items.*1));
}.

(** The nodes that [clear] retires: all of the chain but its last node. *)
Definition retired (p : ptr) (items : list (ptr * T)) : list ptr :=
  take (length items) (p :: items.*1).

(** A queue whose sentinel has no successor: nothing to pull. *)
Definition drained (σ : state) : Prop :=
  ∃ n, heap σ !! m_tail σ = Some n ∧ next n = nullptr.

(** Pushing a sequence of values in order, and pulling [n] times. *)
Fixpoint push_all (vs : list T) : M unit :=
  match vs with
  | [] => ret tt
  | v :: vs => push v;; push_all vs
  end.

Fixpoint pull_n (n : nat) : M (list (option T)) :=
  match n with
  | O => ret []
  | S n =>
      let* r := pull in
      let* rs := pull_n n in
      ret (r :: rs)
  end.

(** The states a single thread can bring the queue into: construct it, then
    push, pull and clear in any order; a push may fail to allocate. *)
Inductive reachable : state → Prop :=
  | reach_new a σ :
      mpsc_queue (raw a) = Ok tt σ → reachable σ
  | reach_push σ v σ' :
      reachable σ → push v σ = Ok tt σ' → reachable σ'
  | reach_push_throw σ v σ' :
      reachable σ → push v σ = Throw σ' → reachable σ'
  | reach_pull σ r σ' :
      reachable σ → pull σ = Ok r σ' → reachable σ'
  | reach_clear σ σ' :
      reachable σ → clear σ = Ok tt σ' → reachable σ'.

(** The shape of a queue right after construction: one node with no
    successor, and both cursors on it. *)
Definition empty_queue (σ : state) : Prop :=
  m_head σ = m_tail σ ∧ ∃ d, heap σ = {[ m_tail σ := Node d nullptr ]}.

(** The allocator calls made when producers obtain the nodes [ps]. *)
Definition acquire_calls (ps : list ptr) : list call :=
  ps ≫= λ p, [Allocate p; Construct p].

(** Two states that agree on everything but the allocator's internals. *)
Definition same_queue (σ σ' : state) : Prop :=
  heap σ = heap σ' ∧ m_head σ = m_head σ' ∧ m_tail σ = m_tail σ'
  ∧ calls σ = calls σ' ∧ live (m_node_alloc σ) = live (m_node_alloc σ').

(** Two outcomes that agree in the same sense. *)
Definition same_outcome {X} (r r' : result (T:=T) (A:=A) X) : Prop :=
  match r, r' with
  | Ok x σ, Ok x' σ' => x = x' ∧ same_queue σ σ'
  | Throw σ, Throw σ' => same_queue σ σ'
  | Undefined, Undefined => True
  | Diverges, Diverges => True
  | _, _ => False
  end.

(** What a call hands back to its caller, if it returns. *)
Definition returned {X} (r : result (T:=T) (A:=A) X) : option X :=
  match r with Ok x _ => Some x | _ => None end.

End model.

(** ** The queue as a list *)

Section abstraction.
Context {T : Type} {VT : ValueType T} {A : Type} {AL : Allocator A}.

Abbreviation state := (state (T:=T) (A:=A)).
Abbreviation node := (node (T:=T)).
Abbreviation M := (M (T:=T) (A:=A)).

(** The values in the nodes behind [p], following [next] until it is null:
    what successive calls of [pull()] are about to return. *)
Fixpoint contents_from (fuel : nat) (h : gmap ptr node) (p : ptr) : list T :=
  match fuel with
  | O => []
  | S fuel =>
      match h !! p with
      | Some n =>
          if decide (next n = nullptr) then []
          else
            match h !! next n with
            | Some n' => data n' :: contents_from fuel h (next n)
            | None => []
            end
      | None => []
      end
  end.

Definition contents (σ : state) : list T :=
  contents_from (size (heap σ)) (heap σ) (m_tail σ).

(** [push_impl] up to and including the exchange of [m_head]; what is left
    of it is the store [prev_head->next.store(new_node)]. *)
Definition push_exchange (value : T) : M (ptr * ptr) :=
  let* new_node := allocate_node in
  construct new_node (node_with nullptr value);;
  let* prev_head := exchange_head new_node in
  ret (prev_head, new_node).

End abstraction.


(** ** Threads

    Producers and the consumer run the member functions above, cut at every
    allocator call and every access to a node or a cursor.  A thread's
    state is its program counter together with the local variables of the
    member function it is in. *)

Section threads.
Context {T : Type} {VT : ValueType T} {A : Type} {AL : Allocator A}.

Abbreviation state := (state (T:=T) (A:=A)).
Abbreviation node := (node (T:=T)).
Abbreviation M := (M (T:=T) (A:=A)).

(** Where a producer is inside [push_impl(value)]. *)
Inductive producer_pc :=
  | PIdle
  | PAllocated (new_node : ptr) (value : T)
  | PConstructed (new_node : ptr) (value : T)
  | PExchanged (prev_head new_node : ptr).

(** A producer: the values it has yet to push, and its program counter. *)
Record producer := Producer { todo : list T; pc : producer_pc }.

(** Where the consumer is inside [pull()]. *)
Inductive consumer_pc :=
  | CIdle
  | CLoadedTail (tail_ptr : ptr)
  | CLoadedNext (tail_ptr next : ptr)
  | CMoved (tail_ptr next : ptr) (result : T)
  | CStored (tail_ptr : ptr) (result : T)
  | CDestroyed (tail_ptr : ptr) (result : T).

(** One step of a producer.  A producer with nothing left to push stays
    where it is. *)
Definition producer_step (pr : producer) : M producer :=
  match pc pr with
  | PIdle =>
      match todo pr with
      | [] => ret pr
      | value :: rest =>
          let* new_node := allocate_node in
          ret (Producer rest (PAllocated new_node value))
      end
  | PAllocated new_node value =>
      construct new_node (node_with nullptr value);;
      ret (Producer (todo pr) (PConstructed new_node value))
  | PConstructed new_node value =>
      let* prev_head := exchange_head new_node in
      ret (Producer (todo pr) (PExchanged prev_head new_node))
  | PExchanged prev_head new_node =>
      store_next prev_head new_node;;
      ret (Producer (todo pr) PIdle)
  end.

(** One step of the consumer, which calls [pull()] over and over.  The
    second component is what [pull()] returned, when the step is a
    return. *)
Definition consumer_step (c : consumer_pc) : M (consumer_pc * option (option T)) :=
  match c with
  | CIdle =>
      let* tail_ptr := load_tail in
      ret (CLoadedTail tail_ptr, None)
  | CLoadedTail tail_ptr =>
      let* next := load_next tail_ptr in
      if decide (next = nullptr) then ret (CIdle, Some None)
      else ret (CLoadedNext tail_ptr next, None)
  | CLoadedNext tail_ptr next =>
      let* result := move_data next in
      ret (CMoved tail_ptr next result, None)
  | CMoved tail_ptr next result =>
      store_tail next;;
      ret (CStored tail_ptr result, None)
  | CStored tail_ptr result =>
      destroy tail_ptr;;
      ret (CDestroyed tail_ptr result, None)
  | CDestroyed tail_ptr result =>
      deallocate_node tail_ptr;;
      ret (CIdle, Some (Some result))
  end.

(** The threads of a run: the producers, the consumer, and the values the
    consumer has obtained so far. *)
Record config := Config {
  producers : list producer;
  consumer : consumer_pc;
  pulled : list T;
}.

Inductive thread := ProducerThread (i : nat) | ConsumerThread.

(** The values a return of [pull()] adds to what the consumer has. *)
Definition obtained (ev : option (option T)) : list T :=
  match ev with Some (Some v) => [v] | _ => [] end.

Definition consumer_turn (c : config) : M (config * option (option T)) :=
  let* r := consumer_step (consumer c) in
  ret (Config (producers c) r.1 (pulled c ++ obtained r.2), r.2).

(** The scheduler lets one thread take one step. *)
Definition step (th : thread) (c : config) : M config :=
  match th with
  | ProducerThread i =>
      match producers c !! i with
      | Some pr =>
          let* pr' := producer_step pr in
          ret (Config (<[i := pr']> (producers c)) (consumer c) (pulled c))
      | None => ret c
      end
  | ConsumerThread =>
      let* r := consumer_turn c in
      ret r.1
  end.

(** A run under a schedule: an arbitrary interleaving of the threads. *)
Fixpoint run (sched : list thread) (c : config) : M config :=
  match sched with
  | [] => ret c
  | th :: sched =>
      let* c' := step th c in
      run sched c'
  end.

(** The final drain: the consumer alone keeps going until a [pull()]
    returns empty. *)
Fixpoint drain (fuel : nat) (c : config) : M config :=
  match fuel with
  | O => λ _, Diverges
  | S fuel =>
      let* r := consumer_turn c in
      match r.2 with
      | Some None => ret r.1
      | _ => drain fuel r.1
      end
  end.

(** Each pull retires a node, and a pull takes six steps. *)
Definition final_drain (c : config) : M config := λ σ,
  drain (6 * S (size (heap σ))) c σ.

(** The threads at the start: producer [i] is about to push [progs !! i]. *)
Definition start (progs : list (list T)) : config :=
  Config ((λ vs, Producer vs PIdle) <$> progs) CIdle [].

(** All producers have pushed everything and returned from [push]. *)
Definition quiescent (c : config) : Prop :=
  Forall (λ pr, todo pr = [] ∧ pc pr = PIdle) (producers c).

(** *** The invariant of a run

    The chain in exchange order: sentinel [p] holding [d], then the entries
    [es].  An entry [(b, q, v)] is node [q] holding [v]; [b] tells whether
    the link from its predecessor has been stored yet. *)
Fixpoint linked (h : gmap ptr node) (p : ptr) (d : T) (es : list (bool * ptr * T)) : Prop :=
  match es with
  | [] => h !! p = Some (Node d nullptr)
  | (b, q, v) :: es =>
      h !! p = Some (Node d (if b then q else nullptr)) ∧ linked h q v es
  end.

(** The links not stored yet, as pairs of predecessor and successor. *)
Fixpoint pending (p : ptr) (es : list (bool * ptr * T)) : list (ptr * ptr) :=
  match es with
  | [] => []
  | (b, q, v) :: es => (if b then [] else [(p, q)]) ++ pending q es
  end.

(** Storing the link into node [q]. *)
Definition publish (q : ptr) (es : list (bool * ptr * T)) : list (bool * ptr * T) :=
  (λ e, if decide (e.1.2 = q) then (true, e.1.2, e.2) else e) <$> es.

Definition entry_ptrs (es : list (bool * ptr * T)) : list ptr := es.*1.*2.
Definition last_ptr (p : ptr) (es : list (bool * ptr * T)) : ptr :=
  default p (last (entry_ptrs es)).

(** What each thread holds that is not in the chain. *)
Definition producer_values (pr : producer) : list T :=
  match pc pr with
  | PAllocated _ v | PConstructed _ v => v :: todo pr
  | _ => todo pr
  end.
Definition producer_link (pr : producer) : list (ptr * ptr) :=
  match pc pr with PExchanged x q => [(x, q)] | _ => [] end.
Definition producer_block (pr : producer) : list ptr :=
  match pc pr with PAllocated q _ | PConstructed q _ => [q] | _ => [] end.
Definition producer_node (h : gmap ptr node) (pr : producer) : Prop :=
  match pc pr with
  | PConstructed q v => h !! q = Some (Node v nullptr)
  | _ => True
  end.

Definition consumer_values (c : consumer_pc) : list T :=
  match c with CMoved _ _ r | CStored _ r | CDestroyed _ r => [r] | _ => [] end.
Definition consumer_block (c : consumer_pc) : list ptr :=
  match c with CStored t _ | CDestroyed t _ => [t] | _ => [] end.
Definition consumer_view (h : gmap ptr node) (p : ptr) (es : list (bool * ptr * T))
    (c : consumer_pc) : Prop :=
  match c with
  | CIdle => True
  | CLoadedTail t => t = p
  | CLoadedNext t n => t = p ∧ ∃ v es', es = (true, n, v) :: es'
  | CMoved t n r => t = p ∧ ∃ es', es = (true, n, moved_from r) :: es'
  | CStored t _ => is_Some (h !! t)
  | CDestroyed _ _ => True
  end.

(** The values still in the chain; while the consumer holds a value it has
    moved out but not yet stepped past, the first entry is spent. *)
Definition queued (c : consumer_pc) (es : list (bool * ptr * T)) : list T :=
  match c with CMoved _ _ _ => tail es.*2 | _ => es.*2 end.

(** All blocks owned by the queue or by a thread on its behalf. *)
Definition owned (c : config) (p : ptr) (es : list (bool * ptr * T)) : list ptr :=
  (p :: entry_ptrs es) ++ (producers c ≫= producer_block)
    ++ consumer_block (consumer c).

Record inv (progs : list (list T)) (c : config) (σ : state)
    (p : ptr) (d : T) (es : list (bool * ptr * T)) : Prop := {
  inv_tail : m_tail σ = p;
  inv_head : m_head σ = last_ptr p es;
  inv_linked : linked (heap σ) p d es;
  inv_nodes : Forall (producer_node (heap σ)) (producers c);
  inv_view : consumer_view (heap σ) p es (consumer c);
  inv_owned : NoDup (owned c p es);
  inv_nonnull : nullptr ∉ owned c p es;
  inv_live : ∀ q, q ∈ owned c p es → q ∈ live (m_node_alloc σ);
  inv_pending : pending p es ≡ₚ producers c ≫= producer_link;
  inv_values :
    pulled c ++ consumer_values (consumer c) ++ queued (consumer c) es
      ++ (producers c ≫= producer_values) ≡ₚ concat progs;
}.

(** How far the consumer is from finding an empty queue when no producer
    runs: six steps per entry, and the steps left in the current pull. *)
Definition distance (c : consumer_pc) (es : list (bool * ptr * T)) : nat :=
  match c with
  | CIdle => 6 * length es + 2
  | CLoadedTail _ => 6 * length es + 1
  | CLoadedNext _ _ => 6 * length es
  | CMoved _ _ _ => 6 * length es - 1
  | CStored _ _ => 6 * length es + 4
  | CDestroyed _ _ => 6 * length es + 3
  end.

End threads.

(** *** Who pushed what

    To follow the values of one producer through a run, every value names
    the producer it belongs to. *)

Section provenance.
Context {T : Type} {VT : ValueType T}.

(** The values in the order in which the consumer gets or will get them:
    those it has obtained, the one it holds in the middle of a [pull()], and
    those still in the chain. *)
Definition history (c : config (T:=T)) (es : list (bool * ptr * T)) : list T :=
  pulled c ++ consumer_values (consumer c) ++ queued (consumer c) es.

(** The values of producer [i] in a list. *)
Definition of_producer (owner : T → nat) (i : nat) (vs : list T) : list T :=
  filter (λ v, owner v = i) vs.

(** Every value that producer [i] is to push names [i]. *)
Definition tagged (owner : T → nat) (progs : list (list T)) : Prop :=
  ∀ i vs, progs !! i = Some vs → Forall (λ v, owner v = i) vs.

(** For every producer: its values in the history, followed by those it has
    yet to hand over, are its program. *)
Definition ordered (owner : T → nat) (progs : list (list T))
    (c : config (T:=T)) (es : list (bool * ptr * T)) : Prop :=
  length (producers c) = length progs
  ∧ ∀ i pr vs, producers c !! i = Some pr → progs !! i = Some vs →
      of_producer owner i (history c es) ++ producer_values pr = vs.

End provenance.

(** ** Instances used to run the queue on concrete inputs *)

(** [mpsc_queue<int>]: a moved-from [int] keeps its value. *)
Global Instance int_value : ValueType Z := {|
  default_value := 0%Z;
  moved_from := λ v, v;
|}.

(** A test allocator.  It reuses the block freed last, like the free list of
    [util::slab_allocator], and otherwise hands out the address above all
    blocks in use.  [budget] is the number of allocations it still grants
    before it starts to fail, which lets a test inject an allocation
    failure. *)
Record arena := Arena {
  in_use : gset ptr;
  free_list : list ptr;
  budget : nat;
}.

Definition arena_top (a : arena) : ptr :=
  N.succ (set_fold N.max 0%N (in_use a)).

Definition arena_pick (a : arena) : ptr :=
  match free_list a with
  | p :: _ =>
      if decide (p ≠ nullptr ∧ p ∉ in_use a) then p else arena_top a
  | [] => arena_top a
  end.

Definition arena_allocate (a : arena) : option ptr * arena :=
  match budget a with
  | O => (None, a)
  | S b =>
      let p := arena_pick a in
      (Some p, Arena ({[p]} ∪ in_use a) (tail (free_list a)) b)
  end.

Definition arena_deallocate (p : ptr) (a : arena) : arena :=
  Arena (in_use a ∖ {[p]}) (p :: free_list a) (budget a).

Global Instance arena_allocator : Allocator arena := {|
  allocate := arena_allocate;
  deallocate := arena_deallocate;
  live := in_use;
|}.

(** An arena with nothing handed out yet that grants [n] allocations. *)
Definition arena_new (n : nat) : arena := Arena ∅ [] n.

(** ** [util::slab_allocator]

    The fixed-block allocator of [include/slab_allocator.hpp].  Its template
    arguments [SlabSize] and [TotalCapacity], the size of the element type
    and the addresses at which the heap places the storage of the pools are
    parameters: [place k] is where the [k]-th pool ever created lives
    (pools are never removed, and a [std::list] never moves them).
    [std::size_t] has 64 bits. *)

Definition wrap (x : N) : N := (x mod 2 ^ 64)%N.

(** [m_pools] holds each pool by the address of its storage, in list order;
    [m_free_list] is the vector, its back at the end of the list. *)
Record slab_allocator := SlabAllocator {
  m_pools : list ptr;
  m_free_list : list ptr;
  m_pool_idx : N;
  m_block_idx : N;
}.

(** [slab_allocator ()] *)
Definition slab_new : slab_allocator := SlabAllocator [] [] 0 0.

(** The template arguments [SlabSize] and [TotalCapacity], [sizeof(T)], and
    the placement of pools. *)
Class slab_params := {
  SlabSize : N;
  TotalCapacity : N;
  sizeof_T : N;
  place : nat → ptr;
}.

Section slab.
Context {params : slab_params}.

(** The [static_assert] of the class. *)
Definition static_assert : Prop :=
  (SlabSize ≤ TotalCapacity)%N ∧ (TotalCapacity mod SlabSize = 0)%N
  ∧ (sizeof_T ≤ SlabSize)%N.

Definition PoolCapacity : N := (TotalCapacity / SlabSize)%N.

(** [sizeof(block_type)], a [std::array<T, SlabSize>]. *)
Definition block_bytes : N := (SlabSize * sizeof_T)%N.

(** [m_pools.emplace_back()] *)
Definition emplace_back (pools : list ptr) : list ptr :=
  pools ++ [place (length pools)].

(** [pointer allocate (std::size_t num)].  [None] is undefined behaviour:
    [back()] of an empty list or an index outside the pool's array. *)
Definition slab_allocate (num : N) (s : slab_allocator)
    : option (ptr * slab_allocator) :=
  if decide (num = 1%N ∧ m_free_list s ≠ []) then
    Some (default nullptr (last (m_free_list s)),
          SlabAllocator (m_pools s) (removelast (m_free_list s))
            (m_pool_idx s) (m_block_idx s))
  else
    let s1 :=
      if decide (m_pools s = []) then
        SlabAllocator (emplace_back (m_pools s)) (m_free_list s) 0 0
      else s in
    let s2 :=
      if decide (PoolCapacity ≤ wrap (m_block_idx s1 + num))%N then
        SlabAllocator (emplace_back (m_pools s1)) (m_free_list s1)
          (wrap (m_pool_idx s1 + 1)) 0
      else s1 in
    match last (m_pools s2) with
    | Some base =>
        if decide (m_block_idx s2 < PoolCapacity)%N then
          Some ((base + m_block_idx s2 * block_bytes)%N,
                SlabAllocator (m_pools s2) (m_free_list s2) (m_pool_idx s2)
                  (wrap (m_block_idx s2 + num)))
        else None
    | None => None
    end.

(** [void deallocate (pointer mem, std::size_t num)] *)
Definition slab_deallocate (mem : ptr) (num : N) (s : slab_allocator)
    : slab_allocator :=
  if decide (mem = nullptr ∨ num = 0%N) then s
  else
    SlabAllocator (m_pools s)
      (m_free_list s
         ++ ((λ i, (mem + wrap (N.of_nat i * SlabSize))%N) <$> seq 0 (N.to_nat num)))
      (m_pool_idx s) (m_block_idx s).

(** [n] calls of [allocate(1)] in a row, with the pointers they return. *)
Fixpoint slab_allocate_n (n : nat) (s : slab_allocator)
    : option (list ptr * slab_allocator) :=
  match n with
  | O => Some ([], s)
  | S n =>
      match slab_allocate 1 s with
      | Some (p, s') =>
          match slab_allocate_n n s' with
          | Some (ps, s'') => Some (p :: ps, s'')
          | None => None
          end
      | None => None
      end
  end.

(** [deallocate(p, 1)] for each [p] of a list, in order. *)
Definition slab_free_all (ps : list ptr) (s : slab_allocator) : slab_allocator :=
  foldl (λ s p, slab_deallocate p 1 s) s ps.

(** The address of block [b] of pool [k]. *)
Definition block_address (k : nat) (b : N) : ptr :=
  (place k + b * block_bytes)%N.

(** A client that uses single blocks the way the queue does: it allocates,
    and it gives back only blocks it holds.  [slab_serves s held]: the
    allocator can be in state [s] while the client holds [held]. *)
Inductive slab_serves : slab_allocator → gset ptr → Prop :=
  | serves_new : slab_serves slab_new ∅
  | serves_allocate s held p s' :
      slab_serves s held → slab_allocate 1 s = Some (p, s') →
      slab_serves s' ({[p]} ∪ held)
  | serves_deallocate s held p :
      slab_serves s held → p ∈ held →
      slab_serves (slab_deallocate p 1 s) (held ∖ {[p]}).

(** The heap places pools at non-null addresses and apart from each
    other. *)
Definition pools_apart : Prop :=
  (∀ k, 0 < place k)%N
  ∧ ∀ k k', k ≠ k' →
      (place k + PoolCapacity * block_bytes ≤ place k'
       ∨ place k' + PoolCapacity * block_bytes ≤ place k)%N.

(** The allocator has handed out the first [PoolCapacity - 1] blocks of each
    of its [k] pools and nothing else. *)
Definition slab_full (k : nat) (s : slab_allocator) : Prop :=
  m_free_list s = [] ∧ m_pools s = place <$> seq 0 k
  ∧ (k ≠ 0%nat → m_block_idx s = PoolCapacity - 1)%N.

(** Block [b] of pool [k] has been carved out: it lies in a pool that
    exists, and below [m_block_idx] if that pool is the last one. *)
Definition carved (s : slab_allocator) (k : nat) (b : N) : Prop :=
  k < length (m_pools s) ∧ (b < PoolCapacity)%N
  ∧ (S k = length (m_pools s) → (b < m_block_idx s)%N).

(** What holds of the allocator while it serves such a client: the free
    list has no duplicates and shares nothing with the blocks held, and
    every block held or free has been carved out. *)
Record slab_ok (s : slab_allocator) (held : gset ptr) : Prop := SlabOk {
  ok_pools : m_pools s = place <$> seq 0 (length (m_pools s));
  ok_idx : (m_block_idx s ≤ PoolCapacity ∧ m_block_idx s + 1 < 2 ^ 64)%N;
  ok_nodup : NoDup (m_free_list s);
  ok_apart : ∀ x, x ∈ m_free_list s → x ∉ held;
  ok_carved : ∀ x, x ∈ held ∨ x ∈ m_free_list s →
    ∃ k b, carved s k b ∧ x = block_address k b;
}.

End slab.

(** ** The two overloads of [push]

    [push (const T &value)] calls [push_impl(T(value))] and
    [push (T &&value)] calls [push_impl(value)], where [push_impl] takes a
    [T &&].  Whether such a call is well-formed is a matter of the value
    category of the argument expression. *)

Inductive value_category := lvalue | xvalue | prvalue.

(** The argument expressions in the two bodies: [T(value)], a temporary
    initialised by copy, and [value], the name of the parameter. *)
Inductive argument := temporary_copy | parameter_name.

Definition category (e : argument) : value_category :=
  match e with
  | temporary_copy => prvalue
  | parameter_name => lvalue
  end.

(** The parameter [T &&value] of [push_impl] binds to rvalues only. *)
Definition binds_rvalue_reference (c : value_category) : bool :=
  match c with
  | lvalue => false
  | xvalue | prvalue => true
  end.

Inductive overload := push_const_ref | push_rvalue_ref.

(** What each overload passes to [push_impl]. *)
Definition forwarded (o : overload) : argument :=
  match o with
  | push_const_ref => temporary_copy
  | push_rvalue_ref => parameter_name
  end.

(** The overload a call [push(e)] selects, by the category of [e] and
    whether its type is const: a non-const rvalue prefers [T &&], everything
    else can only bind to [const T &]. *)
Definition selected (c : value_category) (is_const : bool) : overload :=
  match c, is_const with
  | lvalue, _ => push_const_ref
  | (xvalue | prvalue), true => push_const_ref
  | (xvalue | prvalue), false => push_rvalue_ref
  end.

(** The body of an overload compiles when its call of [push_impl] does. *)
Definition well_formed (o : overload) : bool :=
  binds_rvalue_reference (category (forwarded o)).

(** A call [push(e)] whose argument has category [c] and holds [value]: the
    member function that runs, or [None] when the program is ill-formed. *)
Definition push_call {T : Type} {VT : ValueType T} {A : Type} {AL : Allocator A}
    (c : value_category) (is_const : bool) (value : T)
    : option (M (T:=T) (A:=A) unit) :=
  if well_formed (selected c is_const) then Some (push_impl value) else None.

(** ** Concrete runs on [mpsc_queue<int>] with the test allocator *)

Open Scope Z_scope.

(** Right after construction. *)
Definition demo_fresh : state (T:=Z) (A:=arena) :=
  State {[ 1%N := Node 0 0%N ]} 1%N 1%N
    (Arena {[ 1%N ]} [] 7)
    [Allocate 1%N; Construct 1%N].

(** After pushing 10, 20, 30. *)
Definition demo_pushed : state (T:=Z) (A:=arena) :=
  State
    {[ 1%N := Node 0 2%N; 2%N := Node 10 3%N; 3%N := Node 20 4%N;
       4%N := Node 30 0%N ]}
    4%N 1%N
    (Arena {[ 1%N; 2%N; 3%N; 4%N ]} [] 4)
    [Allocate 1%N; Construct 1%N; Allocate 2%N; Construct 2%N;
     Allocate 3%N; Construct 3%N; Allocate 4%N; Construct 4%N].

(** After [clear()] on that. *)
Definition demo_cleared : state (T:=Z) (A:=arena) :=
  State {[ 4%N := Node 30 0%N ]} 4%N 4%N
    (Arena {[ 4%N ]} [3%N; 2%N; 1%N] 4)
    [Allocate 1%N; Construct 1%N; Allocate 2%N; Construct 2%N;
     Allocate 3%N; Construct 3%N; Allocate 4%N; Construct 4%N;
     Destroy 1%N; Deallocate 1%N; Destroy 2%N; Deallocate 2%N;
     Destroy 3%N; Deallocate 3%N].

(** A fresh queue whose allocator grants nothing more. *)
Definition demo_exhausted : state (T:=Z) (A:=arena) :=
  State {[ 1%N := Node 0 0%N ]} 1%N 1%N
    (Arena {[ 1%N ]} [] 0)
    [Allocate 1%N; Construct 1%N].

(** Two producers, pushing 10, 20 and 1, 2, and a schedule that
    interleaves them with the consumer. *)
Definition demo_progs : list (list Z) := [[10; 20]; [1; 2]].

Definition demo_sched : list thread :=
  let P := ProducerThread in
  let C := ConsumerThread in
  [P 0; P 1; P 0; P 1; C; C; P 1; P 0; P 0; C; C; C; C; P 1;
   C; C; C; C; C; C; C; C; P 0; P 0; P 1; P 1; P 0; P 0; P 1; P 1;
   P 1; P 1]%nat.

(** Where that schedule ends: both producers are done, the consumer has
    obtained 1 and is in the middle of its next [pull()]. *)
Definition demo_threads : config (T:=Z) :=
  Config [Producer [] PIdle; Producer [] PIdle] (CLoadedNext 3%N 2%N) [1].

Definition demo_shared : state (T:=Z) (A:=arena) :=
  State
    {[ 1%N := Node 20 4%N; 2%N := Node 10 1%N; 3%N := Node 1 2%N;
       4%N := Node 2 0%N ]}
    4%N 3%N
    (Arena {[ 1%N; 2%N; 3%N; 4%N ]} [] 3)
    [Allocate 1%N; Construct 1%N; Allocate 2%N; Allocate 3%N;
     Construct 2%N; Construct 3%N; Destroy 1%N; Deallocate 1%N;
     Allocate 1%N; Construct 1%N; Allocate 4%N; Construct 4%N].

(** A push of 7 on the fresh queue, stopped between the exchange of
    [m_head] and the store of the link. *)
Definition demo_exchanged : state (T:=Z) (A:=arena) :=
  State {[ 1%N := Node 0 0%N; 2%N := Node 7 0%N ]} 2%N 1%N
    (Arena {[ 1%N; 2%N ]} [] 6)
    [Allocate 1%N; Construct 1%N; Allocate 2%N; Construct 2%N].

(** In [demo_progs] the values below 10 are those of producer 1. *)
Definition demo_owner (v : Z) : nat := if decide (v < 10) then 1%nat else 0%nat.

Close Scope Z_scope.

(** ** A concrete [slab_allocator]

    The default template arguments, 16-byte elements (a node of
    [mpsc_queue<int>]), and pools placed back to back from address 4096: a
    pool has 64 blocks of 1024 bytes. *)
Definition demo_slab : slab_params := {|
  SlabSize := 64;
  TotalCapacity := 4 * 1024;
  sizeof_T := 16;
  place := λ k, (4096 + N.of_nat k * 65536)%N;
|}.

(** After two allocations and the return of the first block. *)
Definition demo_slab_state : slab_allocator :=
  SlabAllocator [4096%N] [4096%N] 0 2.

Definition demo_slab_held : gset ptr := {[ 5120%N ]}.



(** * Properties *)

(** ** The chain of nodes *)

Section chain.
Context {T : Type} {VT : ValueType T} {A : Type} {AL : Allocator A}.

Lemma chain_last_snoc p (d : T) items q v :
  chain_last p d (items ++ [(q, v)]) = (q, v).
Proof. unfold chain_last. by rewrite last_snoc. Qed.

Lemma chain_last_cons p (d : T) q v items :
  chain_last p d ((q, v) :: items) = chain_last q v items.
Proof.
  unfold chain_last. rewrite last_cons. by destruct (last items).
Qed.

Lemma chain_last_elem p (d : T) items :
  (chain_last p d items).1 ∈ p :: items.*1.
Proof.
  revert p d. induction items as [|[q v] items IH]; intros p d.
  - set_solver.
  - rewrite chain_last_cons. specialize (IH q v). set_solver.
Qed.

Lemma chain_heap_dom p (d : T) items :
  dom (chain_heap p d items) = list_to_set (p :: items.*1).
Proof.
  revert p d. induction items as [|[q v] items IH]; intros p d; simpl.
  - rewrite dom_singleton_L. set_solver.
  - rewrite dom_insert_L, IH. set_solver.
Qed.

Lemma chain_heap_lookup_None p (d : T) items q :
  q ∉ p :: items.*1 → chain_heap p d items !! q = None.
Proof.
  intros Hq. apply not_elem_of_dom. rewrite chain_heap_dom. set_solver.
Qed.

Lemma chain_heap_lookup_first p (d : T) items :
  chain_heap p d items !! p = Some (Node d (default nullptr (head items.*1))).
Proof.
  destruct items as [|[q v] items]; simpl.
  - by rewrite lookup_singleton_eq.
  - by rewrite lookup_insert_eq.
Qed.

Lemma chain_heap_lookup_last p (d : T) items :
  NoDup (p :: items.*1) →
  chain_heap p d items !! (chain_last p d items).1
  = Some (Node (chain_last p d items).2 nullptr).
Proof.
  revert p d. induction items as [|[q v] items IH]; intros p d Hnd; simpl.
  - by rewrite lookup_singleton_eq.
  - rewrite chain_last_cons. apply NoDup_cons in Hnd as [Hp Hnd].
    rewrite lookup_insert_ne; [by apply IH|].
    intros ->. apply Hp. apply (chain_last_elem q v items).
Qed.

Lemma chain_heap_size p (d : T) items :
  NoDup (p :: items.*1) → size (chain_heap p d items) = S (length items).
Proof.
  revert p d. induction items as [|[q v] items IH]; intros p d Hnd; simpl.
  - by rewrite map_size_singleton.
  - apply NoDup_cons in Hnd as [Hp Hnd].
    rewrite map_size_insert_None; [by rewrite IH|].
    by apply chain_heap_lookup_None.
Qed.

(** Linking a new node behind the last one extends the chain by one. *)
Lemma chain_heap_snoc p (d : T) items q v :
  q ∉ p :: items.*1 → NoDup (p :: items.*1) →
  <[ (chain_last p d items).1 := Node (chain_last p d items).2 q ]>
    (<[ q := Node v nullptr ]> (chain_heap p d items))
  = chain_heap p d (items ++ [(q, v)]).
Proof.
  revert p d. induction items as [|[r w] items IH]; intros p d Hq Hnd; simpl.
  - unfold chain_last; simpl.
    assert (p ≠ q) by set_solver.
    apply map_eq; intros k.
    destruct (decide (k = p)), (decide (k = q)); by simplify_map_eq.
  - rewrite chain_last_cons. apply NoDup_cons in Hnd as [Hp Hnd].
    rewrite <-IH; [|set_solver|done].
    assert ((chain_last r w items).1 ≠ p) as Hne.
    { intros <-. apply Hp. apply chain_last_elem. }
    rewrite (insert_insert_ne _ q p) by set_solver.
    by rewrite (insert_insert_ne _ _ p).
Qed.

End chain.

(** ** Facts about call logs *)

Lemma count_allocate_app cs cs' :
  count_allocate (cs ++ cs') = count_allocate cs + count_allocate cs'.
Proof. unfold count_allocate. by rewrite filter_app, length_app. Qed.

Lemma outstanding_from_app s cs cs' :
  outstanding_from s (cs ++ cs') = outstanding_from s cs ≫= λ s', outstanding_from s' cs'.
Proof.
  revert s. induction cs as [|c cs IH]; intros s; [done|].
  destruct c; simpl; try case_decide; by rewrite ?IH.
Qed.

Lemma outstanding_app cs cs' s :
  outstanding cs = Some s →
  outstanding (cs ++ cs') = outstanding_from s cs'.
Proof. unfold outstanding. intros Hs. by rewrite outstanding_from_app, Hs. Qed.

Lemma count_allocate_cons c cs :
  count_allocate (c :: cs) = (if is_allocate c then 1 else 0) + count_allocate cs.
Proof.
  unfold count_allocate. destruct c; simpl;
    by rewrite ?filter_cons_True, ?filter_cons_False by (simpl; congruence).
Qed.

Lemma count_deallocate_cons c cs :
  count_deallocate (c :: cs) = (if is_deallocate c then 1 else 0) + count_deallocate cs.
Proof.
  unfold count_deallocate. destruct c; simpl;
    by rewrite ?filter_cons_True, ?filter_cons_False by (simpl; congruence).
Qed.

(** In a log that replays, allocations and deallocations differ by the
    number of blocks that changed hands. *)
Lemma outstanding_from_count s cs s' :
  outstanding_from s cs = Some s' →
  count_allocate cs + size s = count_deallocate cs + size s'.
Proof.
  revert s. induction cs as [|c cs IH]; intros s Hs; simpl in *.
  - by simplify_eq.
  - rewrite count_allocate_cons, count_deallocate_cons.
    destruct c as [p|p|p|p]; simpl; try case_decide; try done;
      apply IH in Hs; try lia.
    + rewrite size_union, size_singleton in Hs by set_solver. lia.
    + assert (size s = S (size (s ∖ {[p]}))) as ->; [|lia].
      assert (s = {[p]} ∪ s ∖ {[p]}) as Hsp.
      { apply set_eq. intros x.
        rewrite elem_of_union, elem_of_difference, elem_of_singleton.
        destruct (decide (x = p)); naive_solver. }
      rewrite Hsp at 1.
      rewrite size_union by set_solver. by rewrite size_singleton.
Qed.

Lemma outstanding_count cs :
  outstanding cs = Some ∅ → count_allocate cs = count_deallocate cs.
Proof.
  intros Hs. apply outstanding_from_count in Hs.
  rewrite size_empty in Hs. lia.
Qed.

(** ** What each member function does to a well-formed queue *)

Ltac unfold_steps :=
  unfold push, push_impl, pull, mpsc_queue, destructor, bind, ret,
    allocate_node, construct, destroy, deallocate_node, load_head, load_tail,
    store_head, store_tail, exchange_head, load_next, store_next, move_data,
    node_with, node_default, set_heap, set_head, set_tail, set_alloc, log, raw;
  simpl.

Section sequential.
Context {T : Type} {VT : ValueType T} {A : Type} {AL : Allocator A}.
Context {ALaws : AllocatorLaws A}.

Abbreviation state := (state (T:=T) (A:=A)).

(** The constructor: one allocation, and the queue is empty. *)
Lemma mpsc_queue_ok (a a' : A) (p : ptr) :
  allocate a = (Some p, a') →
  ∃ σ : state, mpsc_queue (raw a) = Ok tt σ ∧ is_queue σ p default_value []
    ∧ calls σ = [Allocate p; Construct p].
Proof.
  intros Ha. destruct (allocate_fresh _ _ _ Ha) as (Hnull & Hfresh & Hlive).
  unfold_steps. rewrite Ha. simpl.
  rewrite decide_True by (rewrite Hlive; set_solver).
  eexists. split; [done|]. split; [|done].
  split; simpl; try done.
  - apply NoDup_singleton.
  - set_solver.
  - intros q Hq. rewrite Hlive. set_solver.
Qed.

Lemma mpsc_queue_throw (a a' : A) :
  allocate a = (None, a') → mpsc_queue (raw a) = Throw (raw a').
Proof. intros Ha. unfold_steps. by rewrite Ha. Qed.

(** A push that gets its node appends it to the chain. *)
Lemma push_ok (σ : state) p (d : T) items v q a' :
  is_queue σ p d items →
  allocate (m_node_alloc σ) = (Some q, a') →
  ∃ σ', push v σ = Ok tt σ' ∧ is_queue σ' p d (items ++ [(q, v)])
    ∧ calls σ' = calls σ ++ [Allocate q; Construct q].
Proof.
  intros [Htail Hhead Hheap Hnd Hnn Hlv Hcalls] Ha.
  destruct (allocate_fresh _ _ _ Ha) as (Hnull & Hfresh & Hlive).
  assert (q ∉ p :: items.*1) as Hq by (intros Hq; by apply Hfresh, Hlv).
  unfold_steps. rewrite Ha. simpl.
  rewrite decide_True by (rewrite Hlive; set_solver). simpl.
  rewrite lookup_insert_ne by (intros Heq; apply Hq; rewrite Heq, Hhead; apply chain_last_elem).
  rewrite Hhead, Hheap, chain_heap_lookup_last by done. simpl.
  eexists. split; [done|]. split; [|by rewrite <-app_assoc].
  split; simpl.
  - done.
  - by rewrite chain_last_snoc.
  - by apply chain_heap_snoc.
  - rewrite fmap_app. simpl. rewrite app_comm_cons.
    apply NoDup_app. split; [done|]. split; [|apply NoDup_singleton].
    intros x Hx. rewrite list_elem_of_singleton. by intros ->.
  - rewrite fmap_app. simpl. rewrite app_comm_cons, elem_of_app, list_elem_of_singleton.
    intros [?|?]; [by apply Hnn|done].
  - intros x. rewrite fmap_app. simpl. rewrite app_comm_cons, elem_of_app, list_elem_of_singleton.
    rewrite Hlive. intros [?|Hx]; [|set_solver]. apply elem_of_union_r. by apply Hlv.
  - rewrite <-app_assoc. simpl. rewrite (outstanding_app _ _ _ Hcalls). simpl.
    rewrite decide_False by set_solver.
    rewrite fmap_app, list_to_set_app_L. simpl. f_equal. set_solver.
Qed.

(** A push whose allocation fails throws before it touches the queue. *)
Lemma push_throw (σ : state) v a' :
  allocate (m_node_alloc σ) = (None, a') → push v σ = Throw (set_alloc a' σ).
Proof. intros Ha. unfold_steps. by rewrite Ha. Qed.

Lemma is_queue_set_alloc (σ : state) p (d : T) items a' :
  live a' = live (m_node_alloc σ) →
  is_queue σ p d items → is_queue (set_alloc a' σ) p d items.
Proof. intros Hl [??????]. split; simpl; try done. by rewrite Hl. Qed.

(** Pulling from an empty queue changes nothing. *)
Lemma pull_empty (σ : state) p (d : T) :
  is_queue σ p d [] → pull σ = Ok None σ.
Proof.
  intros [Htail Hhead Hheap Hnd Hnn Hlv Hcalls].
  unfold_steps. rewrite Htail, Hheap. simpl. by rewrite lookup_singleton_eq.
Qed.

(** Pulling from a non-empty queue returns the oldest element, retires the
    sentinel and makes the element's node the new sentinel. *)
Lemma pull_cons (σ : state) p (d : T) q v items :
  is_queue σ p d ((q, v) :: items) →
  ∃ σ', pull σ = Ok (Some v) σ' ∧ is_queue σ' q (moved_from v) items
    ∧ calls σ' = calls σ ++ [Destroy p; Deallocate p].
Proof.
  intros [Htail Hhead Hheap Hnd Hnn Hlv Hcalls].
  destruct σ as [h hd tl a cs]. simpl in *. subst h hd tl.
  assert (q ≠ nullptr) as Hq by set_solver.
  apply NoDup_cons in Hnd as [Hp Hnd].
  assert (p ≠ q) as Hpq by set_solver.
  unfold_steps. rewrite lookup_insert_eq. simpl.
  rewrite decide_False by done. simpl.
  rewrite lookup_insert_ne, chain_heap_lookup_first by done. simpl.
  rewrite lookup_insert_ne, lookup_insert_eq by done. simpl.
  rewrite decide_True by (apply Hlv; set_solver). simpl.
  eexists. split; [done|]. split; [|by rewrite <-app_assoc].
  split; simpl.
  - done.
  - rewrite chain_last_cons. unfold chain_last. by destruct (last items).
  - rewrite (insert_insert_ne _ q p) by done. rewrite delete_insert_eq.
    rewrite delete_id
      by (rewrite lookup_insert_ne by done; apply chain_heap_lookup_None; set_solver).
    destruct items as [|[r w] items]; simpl.
    + by rewrite insert_singleton_eq.
    + by rewrite insert_insert_eq.
  - done.
  - set_solver.
  - intros x Hx. rewrite deallocate_live. apply elem_of_difference. split.
    + apply Hlv. set_solver.
    + set_solver.
  - rewrite <-app_assoc. simpl. rewrite (outstanding_app _ _ _ Hcalls). simpl.
    rewrite decide_True by set_solver. f_equal. set_solver.
Qed.

(** One turn of the loop in [clear] on a non-empty queue: the sentinel is
    retired and its successor takes over, with its value left in place. *)
Lemma retire_step (σ : state) p (d : T) q v items :
  is_queue σ p d ((q, v) :: items) →
  ∃ σ', (store_tail q;; destroy p;; deallocate_node p)%Q σ = Ok tt σ'
    ∧ is_queue σ' q v items
    ∧ calls σ' = calls σ ++ [Destroy p; Deallocate p]
    ∧ m_head σ' = m_head σ
    ∧ live (m_node_alloc σ') = live (m_node_alloc σ) ∖ {[p]}.
Proof.
  intros [Htail Hhead Hheap Hnd Hnn Hlv Hcalls].
  destruct σ as [h hd tl a cs]. simpl in *. subst h hd tl.
  apply NoDup_cons in Hnd as [Hp Hnd].
  unfold_steps. rewrite lookup_insert_eq. simpl.
  rewrite decide_True by (apply Hlv; set_solver). simpl.
  eexists. split; [done|].
  split; [|split; [by rewrite <-app_assoc|split; [done|apply deallocate_live]]].
  split; simpl.
  - done.
  - by rewrite chain_last_cons.
  - rewrite delete_insert_eq. apply delete_id, chain_heap_lookup_None. set_solver.
  - done.
  - set_solver.
  - intros x Hx. rewrite deallocate_live. apply elem_of_difference. split.
    + apply Hlv. set_solver.
    + set_solver.
  - rewrite <-app_assoc. simpl. rewrite (outstanding_app _ _ _ Hcalls). simpl.
    rewrite decide_True by set_solver. f_equal. set_solver.
Qed.

Lemma clear_loop_ok fuel (σ : state) p (d : T) items :
  length items < fuel →
  is_queue σ p d items →
  ∃ σ', clear_loop fuel p σ = Ok tt σ'
    ∧ is_queue σ' (chain_last p d items).1 (chain_last p d items).2 []
    ∧ calls σ' = calls σ ++ retire_calls (retired p items)
    ∧ m_head σ' = m_head σ
    ∧ live (m_node_alloc σ') = live (m_node_alloc σ) ∖ list_to_set (retired p items).
Proof.
  revert fuel σ p d. induction items as [|[q v] items IH]; intros fuel σ p d Hfuel Hq.
  - destruct fuel as [|fuel]; [simpl in Hfuel; lia|].
    exists σ. unfold retired, retire_calls. simpl. rewrite app_nil_r.
    split; [|split; [done|split; [done|split; [done|set_solver]]]].
    destruct Hq as [Htail Hhead Hheap _ _ _ _].
    unfold bind, load_next, ret. rewrite Hheap. simpl.
    by rewrite lookup_singleton_eq.
  - destruct fuel as [|fuel]; [simpl in Hfuel; lia|].
    destruct (retire_step _ _ _ _ _ _ Hq) as (σ1 & Hstep & Hq1 & Hcalls1 & Hhead1 & Hlive1).
    destruct (IH fuel σ1 q v) as (σ2 & Hloop & Hq2 & Hcalls2 & Hhead2 & Hlive2);
      [simpl in Hfuel; lia|done|].
    exists σ2. rewrite chain_last_cons. split; [|split; [done|split; [|split]]].
    + assert (q ≠ nullptr) as Hqn by (destruct Hq; set_solver).
      destruct Hq as [_ _ Hheap _ _ _ _].
      simpl. unfold bind at 1. unfold load_next. rewrite Hheap. simpl.
      rewrite lookup_insert_eq. simpl. rewrite decide_False by done.
      revert Hstep. unfold bind. destruct (store_tail q σ); try done.
      destruct (destroy p σ0); try done. destruct (deallocate_node p σ3); try done.
      by intros [= -> ->].
    + rewrite Hcalls2, Hcalls1, <-app_assoc. f_equal.
    + congruence.
    + rewrite Hlive2, Hlive1. unfold retired. simpl. set_solver.
Qed.

(** [clear] on a well-formed queue: every node but the last is retired, the
    last one becomes the sentinel. *)
Lemma clear_ok (σ : state) p (d : T) items :
  is_queue σ p d items →
  ∃ σ', clear σ = Ok tt σ'
    ∧ is_queue σ' (chain_last p d items).1 (chain_last p d items).2 []
    ∧ calls σ' = calls σ ++ retire_calls (retired p items)
    ∧ m_head σ' = m_head σ
    ∧ live (m_node_alloc σ') = live (m_node_alloc σ) ∖ list_to_set (retired p items).
Proof.
  intros Hq. unfold clear, bind at 1, load_tail.
  rewrite (iq_tail _ _ _ _ Hq). apply clear_loop_ok; [|done].
  rewrite (iq_heap _ _ _ _ Hq), chain_heap_size by apply Hq. lia.
Qed.

(** The loop budget of [clear] is never used up, whatever the state. *)
Lemma clear_loop_budget fuel p (σ : state) :
  size (heap σ) < fuel → clear_loop fuel p σ ≠ Diverges.
Proof.
  revert p σ. induction fuel as [|fuel IH]; intros p σ Hsz; [lia|].
  simpl. unfold bind at 1. unfold load_next.
  destruct (heap σ !! p) as [n|] eqn:Hp; [|done].
  case_decide; [done|].
  unfold_steps. rewrite Hp. simpl. case_decide; [|done]. simpl.
  apply IH. simpl. rewrite map_size_delete_Some by done.
  assert (size (heap σ) ≠ 0) by (by apply (map_size_ne_0_lookup_2 _ p)). lia.
Qed.

Lemma clear_total (σ : state) : clear σ ≠ Diverges.
Proof. unfold clear, bind, load_tail. apply clear_loop_budget. lia. Qed.

(** The destructor of a well-formed queue: [clear], then the last node is
    destroyed through [m_head] and its storage released through [m_tail]. *)
Lemma destructor_ok (σ : state) p (d : T) items :
  is_queue σ p d items →
  ∃ σ1 σ2, clear σ = Ok tt σ1 ∧ destructor σ = Ok tt σ2
    ∧ is_queue σ1 (chain_last p d items).1 (chain_last p d items).2 []
    ∧ calls σ1 = calls σ ++ retire_calls (retired p items)
    ∧ calls σ2 = calls σ1 ++ [Destroy (m_head σ1); Deallocate (m_tail σ1)]
    ∧ heap σ2 = ∅
    ∧ outstanding (calls σ2) = Some ∅
    ∧ live (m_node_alloc σ2) = live (m_node_alloc σ1) ∖ {[m_tail σ1]}.
Proof.
  intros Hq. destruct (clear_ok _ _ _ _ Hq) as (σ1 & Hclear & Hq1 & Hcalls1 & _).
  destruct Hq1 as [Htail Hhead Hheap Hnd Hnn Hlv Hcalls].
  unfold destructor, bind at 1. rewrite Hclear.
  destruct σ1 as [h hd tl a cs]. simpl in *.
  unfold_steps. rewrite Hhead, Hheap. unfold chain_last at 1. simpl.
  rewrite lookup_singleton_eq. simpl. rewrite Htail.
  rewrite decide_True by (apply Hlv; set_solver). simpl.
  eexists _, _. split; [done|]. split; [done|]. simpl.
  split; [by split|]. split; [done|]. split; [by rewrite <-app_assoc|].
  split; [by rewrite delete_singleton_eq|].
  split; [|apply deallocate_live].
  rewrite <-app_assoc. simpl. rewrite (outstanding_app _ _ _ Hcalls). simpl.
  rewrite decide_True by set_solver. f_equal. set_solver.
Qed.

End sequential.

(** ** The test allocator keeps the allocator's promises *)

Lemma arena_top_above (a : arena) (x : ptr) :
  x ∈ in_use a → (x < arena_top a)%N.
Proof.
  unfold arena_top. generalize (in_use a). intros s.
  apply (set_fold_ind_L (λ r s, x ∈ s → (x < N.succ r)%N)).
  - set_solver.
  - intros y s' r Hy IH. rewrite elem_of_union, elem_of_singleton.
    intros [->|Hx]; [lia|]. specialize (IH Hx). lia.
Qed.

Lemma arena_pick_fresh (a : arena) :
  arena_pick a ≠ nullptr ∧ arena_pick a ∉ in_use a.
Proof.
  assert (arena_top a ≠ nullptr ∧ arena_top a ∉ in_use a) as Htop.
  { split; [unfold arena_top, nullptr; lia|].
    intros Hin. apply arena_top_above in Hin. lia. }
  unfold arena_pick. destruct (free_list a); [done|]. by case_decide.
Qed.

Global Instance arena_laws : AllocatorLaws arena.
Proof.
  split.
  - intros a p a'. simpl. unfold arena_allocate.
    destruct (budget a); [done|]. intros [= <- <-]. simpl.
    destruct (arena_pick_fresh a). done.
  - intros a a'. simpl. unfold arena_allocate.
    destruct (budget a); [|done]. by intros [= <-].
  - done.
Qed.

(** ** Single-threaded executions *)

Section executions.
Context {T : Type} {VT : ValueType T} {A : Type} {AL : Allocator A}.
Context {ALaws : AllocatorLaws A}.

Abbreviation state := (state (T:=T) (A:=A)).

(** Every state a single thread can reach is a well-formed chain. *)
Lemma reachable_is_queue (σ : state) :
  reachable σ → ∃ p d items, is_queue σ p d items.
Proof.
  induction 1 as [a σ Hnew|σ v σ' _ IH Hpush|σ v σ' _ IH Hpush
                 |σ r σ' _ IH Hpull|σ σ' _ IH Hclear].
  - destruct (allocate a) as [[p|] a'] eqn:Ha.
    + destruct (mpsc_queue_ok _ _ _ Ha) as (σ0 & Hrun & Hq & _).
      exists p, default_value, []. congruence.
    + rewrite (mpsc_queue_throw _ _ Ha) in Hnew. done.
  - destruct IH as (p & d & items & Hq).
    destruct (allocate (m_node_alloc σ)) as [[q|] a'] eqn:Ha.
    + destruct (push_ok _ _ _ _ v _ _ Hq Ha) as (σ0 & Hrun & Hq' & _).
      exists p, d, (items ++ [(q, v)]). congruence.
    + rewrite (push_throw _ _ _ Ha) in Hpush. done.
  - destruct IH as (p & d & items & Hq).
    destruct (allocate (m_node_alloc σ)) as [[q|] a'] eqn:Ha.
    + destruct (push_ok _ _ _ _ v _ _ Hq Ha) as (σ0 & Hrun & _). congruence.
    + rewrite (push_throw _ _ _ Ha) in Hpush. injection Hpush as <-.
      exists p, d, items. apply is_queue_set_alloc; [|done].
      by apply allocate_fail in Ha.
  - destruct IH as (p & d & [|[q v] items] & Hq).
    + rewrite (pull_empty _ _ _ Hq) in Hpull. injection Hpull as <- <-. eauto.
    + destruct (pull_cons _ _ _ _ _ _ Hq) as (σ0 & Hrun & Hq' & _).
      exists q, (moved_from v), items. congruence.
  - destruct IH as (p & d & items & Hq).
    destruct (clear_ok _ _ _ _ Hq) as (σ0 & Hrun & Hq' & _).
    eexists _, _, []. replace σ' with σ0 by congruence. done.
Qed.

(** A well-formed queue is drained exactly when it holds no element. *)
Lemma drained_is_queue (σ : state) p (d : T) items :
  is_queue σ p d items → drained σ → items = [].
Proof.
  intros Hq (n & Hn & Hnext). destruct items as [|[q v] items]; [done|].
  rewrite (iq_tail _ _ _ _ Hq), (iq_heap _ _ _ _ Hq) in Hn. simpl in Hn.
  rewrite lookup_insert_eq in Hn. injection Hn as <-. simpl in Hnext.
  destruct (iq_nonnull _ _ _ _ Hq). rewrite Hnext. set_solver.
Qed.

Lemma is_queue_drained (σ : state) p (d : T) :
  is_queue σ p d [] → drained σ.
Proof.
  intros Hq. exists (Node d nullptr).
  rewrite (iq_tail _ _ _ _ Hq), (iq_heap _ _ _ _ Hq). simpl.
  by rewrite lookup_singleton_eq.
Qed.

(** Pushing [vs] appends them, each in a node of its own. *)
Lemma push_all_ok (σ σ' : state) p (d : T) items vs :
  is_queue σ p d items →
  push_all vs σ = Ok tt σ' →
  ∃ ns, length ns = length vs ∧ is_queue σ' p d (items ++ zip ns vs)
    ∧ calls σ' = calls σ ++ acquire_calls ns.
Proof.
  revert σ items. induction vs as [|v vs IH]; intros σ items Hq Hrun.
  - exists []. injection Hrun as <-. by rewrite !app_nil_r.
  - simpl in Hrun. unfold bind in Hrun.
    destruct (allocate (m_node_alloc σ)) as [[q|] a'] eqn:Ha.
    + destruct (push_ok _ _ _ _ v _ _ Hq Ha) as (σ0 & Hpush & Hq' & Hc).
      rewrite Hpush in Hrun.
      destruct (IH _ _ Hq' Hrun) as (ns & Hlen & Hq'' & Hc').
      exists (q :: ns). split; [simpl; lia|].
      rewrite <-app_assoc in Hq''. split; [done|].
      rewrite Hc', Hc, <-app_assoc. done.
    + by rewrite (push_throw _ _ _ Ha) in Hrun.
Qed.

(** Pushing never goes wrong: it returns, or an allocation fails. *)
Lemma push_all_safe (σ : state) p (d : T) items vs :
  is_queue σ p d items →
  match push_all vs σ with
  | Ok _ _ | Throw _ => True
  | _ => False
  end.
Proof.
  revert σ items. induction vs as [|v vs IH]; intros σ items Hq; [done|].
  simpl. unfold bind.
  destruct (allocate (m_node_alloc σ)) as [[q|] a'] eqn:Ha.
  - destruct (push_ok _ _ _ _ v _ _ Hq Ha) as (σ0 & Hpush & Hq' & _).
    rewrite Hpush. by eapply IH.
  - by rewrite (push_throw _ _ _ Ha).
Qed.

(** Pulling as many times as there are elements returns them oldest first
    and leaves the queue empty. *)
Lemma pull_n_ok (σ : state) p (d : T) items :
  is_queue σ p d items →
  ∃ σ' d', pull_n (length items) σ = Ok (Some <$> items.*2) σ'
    ∧ is_queue σ' (chain_last p d items).1 d' []
    ∧ calls σ' = calls σ ++ retire_calls (retired p items).
Proof.
  revert σ p d. induction items as [|[q v] items IH]; intros σ p d Hq.
  - exists σ, d. unfold retired, retire_calls. simpl. by rewrite app_nil_r.
  - destruct (pull_cons _ _ _ _ _ _ Hq) as (σ1 & Hpull & Hq1 & Hc1).
    destruct (IH _ _ _ Hq1) as (σ2 & d' & Hrest & Hq2 & Hc2).
    exists σ2, d'. simpl. unfold bind. rewrite Hpull, Hrest. simpl.
    split; [done|]. rewrite chain_last_cons. split.
    + replace (chain_last q v items).1
        with (chain_last q (moved_from v) items).1; [done|].
      unfold chain_last. by destruct (last items).
    + rewrite Hc2, Hc1, <-app_assoc. done.
Qed.

(** C3 — Empty on construction: on a freshly constructed queue, before any
    push, [pull()] returns the empty result (and leaves the queue as it
    was). *)
Theorem pull_fresh_is_empty (a : A) (σ : state) :
  mpsc_queue (raw a) = Ok tt σ → pull σ = Ok None σ.
Proof.
  intros Hnew. destruct (allocate a) as [[p|] a'] eqn:Ha.
  - destruct (mpsc_queue_ok _ _ _ Ha) as (σ0 & Hrun & Hq & _).
    replace σ with σ0 by congruence. by eapply pull_empty.
  - by rewrite (mpsc_queue_throw _ _ Ha) in Hnew.
Qed.

(** C1 — Single-producer order preservation: when one thread pushes the
    values [vs] in order onto an empty queue and no pull runs in between,
    the next [length vs] calls of [pull()] return exactly [vs] in that
    order, and the call after them returns empty. *)
Theorem single_producer_order (σ0 σ1 : state) (vs : list T) :
  reachable σ0 → drained σ0 →
  push_all vs σ0 = Ok tt σ1 →
  ∃ σ2, pull_n (length vs) σ1 = Ok (Some <$> vs) σ2
    ∧ pull σ2 = Ok None σ2.
Proof.
  intros Hreach Hdrained Hpush.
  destruct (reachable_is_queue _ Hreach) as (p & d & items & Hq).
  rewrite (drained_is_queue _ _ _ _ Hq Hdrained) in Hq.
  destruct (push_all_ok _ _ _ _ _ _ Hq Hpush) as (ns & Hlen & Hq1 & _).
  simpl in Hq1.
  destruct (pull_n_ok _ _ _ _ Hq1) as (σ2 & d' & Hpull & Hq2 & _).
  exists σ2. split; [|by eapply pull_empty].
  rewrite length_zip, Hlen, Nat.min_id in Hpull.
  by rewrite snd_zip in Hpull by lia.
Qed.


Lemma is_queue_empty_queue (σ : state) p (d : T) :
  is_queue σ p d [] → empty_queue σ.
Proof.
  intros [Htail Hhead Hheap _ _ _ _]. split; [by rewrite Htail, Hhead|].
  exists d. by rewrite Htail, Hheap.
Qed.

(** A freshly constructed queue has the shape [empty_queue]. *)
Lemma mpsc_queue_empty_queue (a : A) (σ : state) :
  mpsc_queue (raw a) = Ok tt σ → empty_queue σ.
Proof.
  intros Hnew. destruct (allocate a) as [[p|] a'] eqn:Ha.
  - destruct (mpsc_queue_ok _ _ _ Ha) as (σ0 & Hrun & Hq & _).
    replace σ with σ0 by congruence. by eapply is_queue_empty_queue.
  - by rewrite (mpsc_queue_throw _ _ Ha) in Hnew.
Qed.


(** C6 — Destruction: with no producer running, the destructor returns; it
    first does what [clear()] does, reaching the state [σ1] in which one
    node [l] is left, and then destroys and deallocates exactly that node:
    the node destroyed through [m_head] and the node deallocated through
    [m_tail] are the same [l]. *)
Theorem destructor_frees_final_sentinel (σ : state) :
  reachable σ →
  ∃ σ1 σ2 l,
    clear σ = Ok tt σ1 ∧ destructor σ = Ok tt σ2
    ∧ m_head σ1 = l ∧ m_tail σ1 = l ∧ dom (heap σ1) = {[l]}
    ∧ calls σ2 = calls σ1 ++ [Destroy l; Deallocate l]
    ∧ heap σ2 = ∅
    ∧ live (m_node_alloc σ2) = live (m_node_alloc σ1) ∖ {[l]}.
Proof.
  intros Hreach.
  destruct (reachable_is_queue _ Hreach) as (p & d & items & Hq).
  destruct (destructor_ok _ _ _ _ Hq)
    as (σ1 & σ2 & Hclear & Hdtor & Hq1 & _ & Hcalls & Hheap & _ & Hlive).
  pose proof (iq_tail _ _ _ _ Hq1) as Htail.
  pose proof (iq_head _ _ _ _ Hq1) as Hhead. unfold chain_last at 1 in Hhead.
  simpl in Hhead.
  exists σ1, σ2, (chain_last p d items).1.
  split; [done|]. split; [done|]. split; [done|]. split; [done|].
  split; [by rewrite (iq_heap _ _ _ _ Hq1); simpl; rewrite dom_singleton_L|].
  split; [by rewrite Hcalls, Hhead, Htail|]. split; [done|].
  by rewrite Hlive, Htail.
Qed.

(** C10 — After [clear()] the cursors meet: in a single-threaded execution,
    when [clear()] returns, [m_tail] and [m_head] reference the same node,
    which is the last node of the chain (the one [m_head] referenced before)
    and has a null [next]; the destructor's [destroy] of the head and
    [deallocate] of the tail therefore act on that one node. *)
Theorem clear_cursors_meet (σ σ' : state) :
  reachable σ → clear σ = Ok tt σ' →
  m_tail σ' = m_head σ' ∧ m_head σ' = m_head σ
  ∧ (∃ n, heap σ' !! m_tail σ' = Some n ∧ next n = nullptr)
  ∧ ∃ σ'', destructor σ = Ok tt σ''
      ∧ calls σ'' = calls σ' ++ [Destroy (m_tail σ'); Deallocate (m_tail σ')].
Proof.
  intros Hreach Hclear.
  destruct (reachable_is_queue _ Hreach) as (p & d & items & Hq).
  destruct (destructor_ok _ _ _ _ Hq)
    as (σ1 & σ2 & Hclear1 & Hdtor & Hq1 & _ & Hcalls & _).
  destruct (clear_ok _ _ _ _ Hq) as (σ0 & Hclear0 & _ & _ & Hhead0 & _).
  assert (σ1 = σ') as -> by congruence. assert (σ0 = σ') as -> by congruence.
  destruct (is_queue_empty_queue _ _ _ Hq1) as [Hmeet _].
  split; [done|]. split; [done|]. split; [by eapply is_queue_drained|].
  exists σ2. split; [done|]. by rewrite Hcalls, Hmeet.
Qed.

(** C8 — Idempotent emptiness: on a drained queue every further [pull()]
    returns empty and leaves the whole state as it was: the cursors, the
    nodes, the allocator and the log of allocator calls. *)
Theorem pull_drained_is_noop (σ : state) (k : nat) :
  drained σ → pull_n k σ = Ok (replicate k None) σ.
Proof.
  intros (n & Hn & Hnext).
  assert (pull σ = Ok None σ) as Hpull.
  { unfold pull, bind, load_tail, load_next. rewrite Hn, Hnext. done. }
  induction k as [|k IH]; [done|].
  simpl. unfold bind. by rewrite Hpull, IH.
Qed.

Lemma count_allocate_acquire ns : count_allocate (acquire_calls ns) = length ns.
Proof.
  induction ns as [|n ns IH]; [done|].
  change (acquire_calls (n :: ns)) with ([Allocate n; Construct n] ++ acquire_calls ns).
  by rewrite count_allocate_app, IH.
Qed.

Lemma count_allocate_retire ps : count_allocate (retire_calls ps) = 0.
Proof.
  induction ps as [|p ps IH]; [done|].
  change (retire_calls (p :: ps)) with ([Destroy p; Deallocate p] ++ retire_calls ps).
  by rewrite count_allocate_app, IH.
Qed.

(** C5 — No leak, no double free: construct a queue, push any values [vs],
    drain it with [pull()] until empty and destroy it.  Every step returns,
    and in the log of allocator calls the deallocations are as many as the
    allocations, namely one per pushed value plus one for the sentinel that
    the constructor allocates and the destructor frees; replaying the log,
    every deallocation releases a block that is allocated at that moment
    (none is released twice) and no block is left over. *)
Theorem no_leak_no_double_free (a : A) (vs : list T) (σ0 σ1 : state) :
  mpsc_queue (raw a) = Ok tt σ0 →
  push_all vs σ0 = Ok tt σ1 →
  ∃ σ2 σ3,
    pull_n (length vs) σ1 = Ok (Some <$> vs) σ2 ∧ drained σ2
    ∧ destructor σ2 = Ok tt σ3
    ∧ count_allocate (calls σ3) = S (length vs)
    ∧ count_deallocate (calls σ3) = count_allocate (calls σ3)
    ∧ outstanding (calls σ3) = Some ∅
    ∧ heap σ3 = ∅.
Proof.
  intros Hnew Hpush.
  destruct (allocate a) as [[p|] a'] eqn:Ha;
    [|by rewrite (mpsc_queue_throw _ _ Ha) in Hnew].
  destruct (mpsc_queue_ok _ _ _ Ha) as (σ & Hrun & Hq0 & Hc0).
  assert (σ = σ0) as -> by congruence.
  destruct (push_all_ok _ _ _ _ _ _ Hq0 Hpush) as (ns & Hlen & Hq1 & Hc1).
  simpl in Hq1.
  destruct (pull_n_ok _ _ _ _ Hq1) as (σ2 & d' & Hpull & Hq2 & Hc2).
  rewrite length_zip, Hlen, Nat.min_id in Hpull.
  rewrite snd_zip in Hpull by lia.
  destruct (destructor_ok _ _ _ _ Hq2)
    as (σ2' & σ3 & _ & Hdtor & _ & Hc2' & Hc3 & Hheap & Hout & _).
  exists σ2, σ3. split; [done|]. split; [by eapply is_queue_drained|].
  split; [done|].
  assert (count_allocate (calls σ3) = S (length vs)) as Hcount.
  { rewrite Hc3, Hc2', Hc2, Hc1, Hc0.
    rewrite !count_allocate_app, !count_allocate_retire, count_allocate_acquire.
    rewrite !count_allocate_cons. simpl. unfold count_allocate. simpl. lia. }
  split; [done|]. split; [by rewrite (outstanding_count _ Hout)|]. done.
Qed.

(** *** Failed allocations *)

Lemma bind_same_outcome {X Y} (m : M X) (k : X → M Y) (σ σ' : state) :
  same_outcome (m σ) (m σ') →
  (∀ x s s', same_queue s s' → same_outcome (k x s) (k x s')) →
  same_outcome (bind m k σ) (bind m k σ').
Proof.
  unfold bind. intros Hm Hk.
  destruct (m σ), (m σ'); simpl in *; try done.
  destruct Hm as [-> Hs]. by apply Hk.
Qed.

(** [pull] reads and writes the nodes and the tail cursor, and asks the
    allocator only to take a block back: it cannot tell such states apart. *)
Lemma pull_same_queue (σ σ' : state) :
  same_queue σ σ' → same_outcome (pull σ) (pull σ').
Proof.
  assert (∀ s s' : state, same_queue s s' →
    ∃ h hd tl cs a a', s = State h hd tl a cs ∧ s' = State h hd tl a' cs
      ∧ live a = live a') as Hsame.
  { intros [h hd tl a cs] [h' hd' tl' a' cs'] (Hh & Hhd & Ht & Hc & Hl).
    simpl in *. subst. by eexists _, _, _, _, _, _. }
  intros Hs. unfold pull.
  apply bind_same_outcome.
  { destruct (Hsame _ _ Hs) as (h & hd & tl & cs & a & a' & -> & -> & Hl).
    by repeat split. }
  intros tail_ptr s1 s1' Hs1. apply bind_same_outcome.
  { destruct (Hsame _ _ Hs1) as (h & hd & tl & cs & a & a' & -> & -> & Hl).
    unfold load_next. simpl. destruct (h !! tail_ptr); [|done]. by repeat split. }
  intros nxt s2 s2' Hs2. case_decide; [done|].
  apply bind_same_outcome.
  { destruct (Hsame _ _ Hs2) as (h & hd & tl & cs & a & a' & -> & -> & Hl).
    unfold move_data. simpl. destruct (h !! nxt); [|done]. by repeat split. }
  intros r s3 s3' Hs3. apply bind_same_outcome.
  { destruct (Hsame _ _ Hs3) as (h & hd & tl & cs & a & a' & -> & -> & Hl).
    by repeat split. }
  intros _ s4 s4' Hs4. apply bind_same_outcome.
  { destruct (Hsame _ _ Hs4) as (h & hd & tl & cs & a & a' & -> & -> & Hl).
    unfold destroy. simpl. destruct (h !! tail_ptr); [|done]. by repeat split. }
  intros _ s5 s5' Hs5. apply bind_same_outcome.
  { destruct (Hsame _ _ Hs5) as (h & hd & tl & cs & a & a' & -> & -> & Hl).
    unfold deallocate_node. simpl. rewrite Hl. case_decide; [|done].
    repeat split; try done. simpl. by rewrite !deallocate_live, Hl. }
  intros _ s6 s6' Hs6. done.
Qed.

Lemma pull_n_same_queue k (σ σ' : state) :
  same_queue σ σ' → same_outcome (pull_n k σ) (pull_n k σ').
Proof.
  revert σ σ'. induction k as [|k IH]; intros σ σ' Hs; [done|].
  simpl. apply bind_same_outcome; [by apply pull_same_queue|].
  intros r s s' Hs1. apply bind_same_outcome; [by apply IH|].
  intros rs s2 s2' Hs2. done.
Qed.

Lemma same_outcome_returned {X} (r r' : result (T:=T) (A:=A) X) :
  same_outcome r r' → returned r = returned r'.
Proof. destruct r, r'; simpl; try done. by intros [-> _]. Qed.

(** C9 — Allocation failure: when the allocator fails the one [allocate]
    call that [push] makes, the failure leaves [push] as an exception then
    and there; nothing is retried (the allocator is left in the state [a']
    of that single call).  No node is constructed or linked, [m_head] is not
    exchanged, the log has no new entry, and any number of later pulls
    return what they would have returned had the push never been tried. *)
Theorem push_allocation_failure (σ : state) (v : T) (a' : A) :
  allocate (m_node_alloc σ) = (None, a') →
  ∃ σ', push v σ = Throw σ'
    ∧ heap σ' = heap σ ∧ m_head σ' = m_head σ ∧ m_tail σ' = m_tail σ
    ∧ calls σ' = calls σ ∧ m_node_alloc σ' = a'
    ∧ ∀ k, returned (pull_n k σ') = returned (pull_n k σ).
Proof.
  intros Ha. exists (set_alloc a' σ).
  split; [by apply push_throw|]. do 5 (split; [done|]).
  intros k. apply same_outcome_returned, pull_n_same_queue.
  repeat split; try done. simpl. by apply allocate_fail in Ha.
Qed.

End executions.

(** ** Interleaved executions *)

Section interleavings.
Context {T : Type} {VT : ValueType T} {A : Type} {AL : Allocator A}.
Context {ALaws : AllocatorLaws A}.

Abbreviation state := (state (T:=T) (A:=A)).
Abbreviation node := (node (T:=T)).
Abbreviation entries := (list (bool * ptr * T)).
Abbreviation config := (config (T:=T)).
Abbreviation producer := (producer (T:=T)).

Implicit Types (h : gmap ptr node) (p q x : ptr) (d v : T) (es : entries).

(** *** Threads run the member functions

    Four steps of a producer are one [push], and the steps of the consumer
    from one return of [pull()] to the next are one [pull()]. *)

Lemma producer_steps_push v vs (σ : state) :
  (let* pr1 := producer_step (Producer (v :: vs) PIdle) in
   let* pr2 := producer_step pr1 in
   let* pr3 := producer_step pr2 in
   producer_step pr3) σ
  = (push v;; ret (Producer vs PIdle)) σ.
Proof.
  unfold producer_step, push, push_impl, bind, ret, allocate_node, construct,
    exchange_head, store_next. simpl.
  destruct (allocate (m_node_alloc σ)) as [[q|] a']; [|done]. simpl.
  case_decide; [|done]. simpl.
  by destruct (<[q:=node_with nullptr v]> (heap σ) !! m_head σ).
Qed.

Lemma consumer_steps_pull (σ : state) :
  (let* r1 := consumer_step CIdle in
   let* r2 := consumer_step r1.1 in
   match r2.2 with
   | Some ev => ret ev
   | None =>
       let* r3 := consumer_step r2.1 in
       let* r4 := consumer_step r3.1 in
       let* r5 := consumer_step r4.1 in
       let* r6 := consumer_step r5.1 in
       ret (default None r6.2)
   end) σ
  = pull σ.
Proof.
  unfold consumer_step, pull, bind, ret, load_tail, load_next, move_data,
    store_tail, destroy, deallocate_node. simpl.
  destruct (heap σ !! m_tail σ) as [n|]; [|done]. simpl.
  case_decide; [done|]. simpl.
  destruct (heap σ !! next n) as [n'|]; [|done]. simpl.
  destruct (<[next n:=_]> _ !! m_tail σ); [|done]. simpl.
  by case_decide.
Qed.

(** *** The chain with links in flight *)

Lemma entry_ptrs_app es es' :
  entry_ptrs (es ++ es') = entry_ptrs es ++ entry_ptrs es'.
Proof. unfold entry_ptrs. by rewrite !fmap_app. Qed.

Lemma last_ptr_cons p b q v es : last_ptr p ((b, q, v) :: es) = last_ptr q es.
Proof.
  unfold last_ptr, entry_ptrs. rewrite !fmap_cons, last_cons.
  by destruct (last _).
Qed.

Lemma last_ptr_snoc p es b q v : last_ptr p (es ++ [(b, q, v)]) = q.
Proof.
  unfold last_ptr. rewrite entry_ptrs_app.
  change (entry_ptrs [(b, q, v)]) with [q]. by rewrite last_snoc.
Qed.

Lemma linked_insert_ne h p d es x n :
  x ∉ p :: entry_ptrs es → linked h p d es → linked (<[x := n]> h) p d es.
Proof.
  revert p d. induction es as [|[[b q] v] es IH]; intros p d Hx; simpl.
  - intros Hp. rewrite lookup_insert_ne; [done|set_solver].
  - change (entry_ptrs ((b, q, v) :: es)) with (q :: entry_ptrs es) in Hx.
    intros [Hp Hes]. split; [rewrite lookup_insert_ne; [done|set_solver]|].
    apply IH; [set_solver|done].
Qed.

Lemma linked_delete_ne h p d es x :
  x ∉ p :: entry_ptrs es → linked h p d es → linked (delete x h) p d es.
Proof.
  revert p d. induction es as [|[[b q] v] es IH]; intros p d Hx; simpl.
  - intros Hp. rewrite lookup_delete_ne; [done|set_solver].
  - change (entry_ptrs ((b, q, v) :: es)) with (q :: entry_ptrs es) in Hx.
    intros [Hp Hes]. split; [rewrite lookup_delete_ne; [done|set_solver]|].
    apply IH; [set_solver|done].
Qed.

Lemma linked_first h p d es :
  linked h p d es → ∃ nx, h !! p = Some (Node d nx).
Proof. destruct es as [|[[b q] v] es]; simpl; [eauto|]. intros [? _]. eauto. Qed.

(** Exchanging [m_head] appends an entry whose link is still missing. *)
Lemma linked_snoc h p d es q v :
  linked h p d es → h !! q = Some (Node v nullptr) →
  linked h p d (es ++ [(false, q, v)]).
Proof.
  revert p d. induction es as [|[[b r] w] es IH]; intros p d; simpl.
  - done.
  - intros [Hp Hes] Hq. split; [done|]. by apply IH.
Qed.

Lemma linked_set_data h p d d' es nx :
  NoDup (p :: entry_ptrs es) → linked h p d es →
  h !! p = Some (Node d nx) → linked (<[p := Node d' nx]> h) p d' es.
Proof.
  intros Hnd Hes Hp. apply NoDup_cons in Hnd as [Hnp Hnd].
  destruct es as [|[[b q] v] es]; simpl in *.
  - rewrite lookup_insert_eq. congruence.
  - destruct Hes as [Hp' Hes]. split; [rewrite lookup_insert_eq; congruence|].
    by apply linked_insert_ne.
Qed.

Lemma pending_elem p es x q :
  (x, q) ∈ pending p es → x ∈ p :: entry_ptrs es ∧ q ∈ entry_ptrs es.
Proof.
  revert p. induction es as [|[[b r] w] es IH]; intros p; simpl.
  - set_solver.
  - change (entry_ptrs ((b, r, w) :: es)) with (r :: entry_ptrs es).
    rewrite elem_of_app. intros [Hhere|Hthere].
    + destruct b; [set_solver|]. apply list_elem_of_singleton in Hhere.
      injection Hhere as -> ->. set_solver.
    + apply IH in Hthere. set_solver.
Qed.

Lemma pending_snoc p es b q v :
  pending p (es ++ [(b, q, v)])
  = pending p es ++ (if b then [] else [(last_ptr p es, q)]).
Proof.
  revert p. induction es as [|[[c r] w] es IH]; intros p; simpl.
  - by rewrite app_nil_r.
  - by rewrite IH, last_ptr_cons, app_assoc.
Qed.

Lemma publish_cons q b r w es :
  publish q ((b, r, w) :: es)
  = (if decide (r = q) then true else b, r, w) :: publish q es.
Proof. unfold publish. rewrite fmap_cons. simpl. by case_decide. Qed.

Lemma publish_notin q es : q ∉ entry_ptrs es → publish q es = es.
Proof.
  induction es as [|[[b r] w] es IH]; [done|].
  change (entry_ptrs ((b, r, w) :: es)) with (r :: entry_ptrs es).
  intros Hq. rewrite publish_cons, decide_False by set_solver.
  f_equal. apply IH. set_solver.
Qed.

Lemma publish_ptrs q es : entry_ptrs (publish q es) = entry_ptrs es.
Proof.
  induction es as [|[[b r] w] es IH]; [done|].
  rewrite publish_cons.
  change (entry_ptrs (?e :: ?l)) with (e.1.2 :: entry_ptrs l). simpl.
  by rewrite IH.
Qed.

Lemma publish_values q es : (publish q es).*2 = es.*2.
Proof.
  induction es as [|[[b r] w] es IH]; [done|].
  rewrite publish_cons, !fmap_cons. simpl. by rewrite IH.
Qed.

Lemma last_ptr_publish p q es : last_ptr p (publish q es) = last_ptr p es.
Proof. unfold last_ptr. by rewrite publish_ptrs. Qed.

(** Storing a pending link publishes the entry it leads to. *)
Lemma linked_publish h p d es x q :
  NoDup (p :: entry_ptrs es) → (x, q) ∈ pending p es → linked h p d es →
  ∃ n, h !! x = Some n ∧ linked (<[x := Node (data n) q]> h) p d (publish q es).
Proof.
  revert p d. induction es as [|[[b r] w] es IH]; intros p d Hnd Hin Hes.
  - by apply not_elem_of_nil in Hin.
  - change (entry_ptrs ((b, r, w) :: es)) with (r :: entry_ptrs es) in Hnd.
    apply NoDup_cons in Hnd as [Hp Hnd]. pose proof Hnd as Hnd'.
    apply NoDup_cons in Hnd' as [Hr _].
    simpl in Hin, Hes. destruct Hes as [Hhp Hes].
    apply elem_of_app in Hin as [Hhere|Hthere].
    + destruct b; [by apply not_elem_of_nil in Hhere|].
      apply list_elem_of_singleton in Hhere. injection Hhere as -> ->.
      exists (Node d nullptr). split; [done|].
      rewrite publish_cons, decide_True by done.
      rewrite publish_notin by done. simpl.
      rewrite lookup_insert_eq. split; [done|].
      apply linked_insert_ne; [set_solver|done].
    + destruct (pending_elem _ _ _ _ Hthere) as [Hx Hq].
      destruct (IH r w Hnd Hthere Hes) as (n & Hn & Hlinked).
      exists n. split; [done|].
      rewrite publish_cons, decide_False by set_solver.
      simpl. split; [|done].
      rewrite lookup_insert_ne; [done|set_solver].
Qed.

Lemma pending_publish p es x q :
  NoDup (p :: entry_ptrs es) → (x, q) ∈ pending p es →
  pending p es ≡ₚ (x, q) :: pending p (publish q es).
Proof.
  revert p. induction es as [|[[b r] w] es IH]; intros p Hnd Hin.
  - by apply not_elem_of_nil in Hin.
  - change (entry_ptrs ((b, r, w) :: es)) with (r :: entry_ptrs es) in Hnd.
    apply NoDup_cons in Hnd as [Hp Hnd]. pose proof Hnd as Hnd'.
    apply NoDup_cons in Hnd' as [Hr _].
    simpl in Hin. apply elem_of_app in Hin as [Hhere|Hthere].
    + destruct b; [by apply not_elem_of_nil in Hhere|].
      apply list_elem_of_singleton in Hhere. injection Hhere as -> ->.
      rewrite publish_cons, decide_True by done.
      by rewrite publish_notin.
    + destruct (pending_elem _ _ _ _ Hthere) as [Hx Hq].
      rewrite publish_cons, decide_False by set_solver.
      simpl. rewrite (IH r Hnd Hthere).
      by rewrite Permutation_middle.
Qed.

(** *** Steps preserve the invariant *)

Ltac expose :=
  unfold owned, log, set_alloc, set_heap, set_head, set_tail in *;
  cbn [producers consumer pulled pc todo producer_block producer_link
       producer_values producer_node heap m_head m_tail m_node_alloc calls] in *;
  rewrite ?bind_app, ?bind_cons, ?Forall_app, ?Forall_cons in *;
  cbn [producers consumer pulled pc todo producer_block producer_link
       producer_values producer_node] in *.

(** The goal speaks of a list that is [extra] and the list of [H],
    rearranged: restate it for [extra ++] that list. *)
Ltac rearrange H extra :=
  let Hp := fresh "Hperm" in
  lazymatch type of H with
  | NoDup ?old =>
      lazymatch goal with |- NoDup ?new =>
        assert (new ≡ₚ extra ++ old) as Hp by solve_Permutation;
        rewrite Hp; clear Hp
      end
  | _ ∉ ?old =>
      lazymatch goal with |- _ ∉ ?new =>
        assert (new ≡ₚ extra ++ old) as Hp by solve_Permutation;
        rewrite Hp; clear Hp
      end
  | ∀ x, x ∈ ?old → _ =>
      lazymatch goal with |- ∀ y, y ∈ ?new → _ =>
        assert (new ≡ₚ extra ++ old) as Hp by solve_Permutation;
        intros ?; rewrite Hp; clear Hp
      end
  | ?old ≡ₚ _ =>
      lazymatch goal with |- ?new ≡ₚ _ =>
        assert (new ≡ₚ extra ++ old) as Hp by solve_Permutation;
        rewrite Hp; clear Hp
      end
  end.

(** [allocate]: the producer now owns a block nobody else has. *)
Lemma inv_allocate progs l1 l2 vs v cpc out (σ : state) p d es q a' :
  inv progs (Config (l1 ++ Producer (v :: vs) PIdle :: l2) cpc out) σ p d es →
  allocate (m_node_alloc σ) = (Some q, a') →
  inv progs (Config (l1 ++ Producer vs (PAllocated q v) :: l2) cpc out)
    (log (Allocate q) (set_alloc a' σ)) p d es.
Proof.
  intros [Htail Hhead Hlinked Hnodes Hview Hnd Hnn Hlive Hpend Hvals] Ha.
  destruct (allocate_fresh _ _ _ Ha) as (Hnull & Hfresh & Hlive').
  split; expose; try done.
  - rearrange Hnd [q]. apply NoDup_cons. split; [|done].
    intros Hin. by apply Hfresh, Hlive.
  - rearrange Hnn [q]. by apply not_elem_of_cons.
  - rearrange Hlive [q]. rewrite Hlive'. simpl. rewrite elem_of_cons.
    intros [->|Hx]; [set_solver|]. apply elem_of_union_r. by apply Hlive.
Qed.

Lemma owned_disjoint (chain blocks held : list ptr) :
  NoDup (chain ++ blocks ++ held) →
  NoDup chain
  ∧ (∀ x, x ∈ chain → (x ∉ blocks) ∧ (x ∉ held))
  ∧ (∀ x, x ∈ blocks → x ∉ held).
Proof.
  rewrite !NoDup_app. intros (Hc & Hcb & Hb & Hbh & _).
  split; [done|]. split; [|done].
  intros x Hx. specialize (Hcb x Hx). set_solver.
Qed.

Lemma producer_nodes_insert h (l : list producer) x n :
  x ∉ l ≫= producer_block →
  Forall (producer_node h) l → Forall (producer_node (<[x := n]> h)) l.
Proof.
  intros Hx. rewrite !Forall_forall. intros Hl pr Hpr. specialize (Hl pr Hpr).
  destruct pr as [td [| |r w|]]; try done. unfold producer_node in *. simpl in *.
  rewrite lookup_insert_ne; [done|]. intros ->. apply Hx.
  apply list_elem_of_bind. eexists. split; [|done]. set_solver.
Qed.

Lemma producer_nodes_delete h (l : list producer) x :
  x ∉ l ≫= producer_block →
  Forall (producer_node h) l → Forall (producer_node (delete x h)) l.
Proof.
  intros Hx. rewrite !Forall_forall. intros Hl pr Hpr. specialize (Hl pr Hpr).
  destruct pr as [td [| |r w|]]; try done. unfold producer_node in *. simpl in *.
  rewrite lookup_delete_ne; [done|]. intros ->. apply Hx.
  apply list_elem_of_bind. eexists. split; [|done]. set_solver.
Qed.

Lemma consumer_view_insert h p es c x n :
  consumer_view h p es c → consumer_view (<[x := n]> h) p es c.
Proof.
  destruct c; simpl; try done. rewrite lookup_insert_is_Some.
  destruct (decide (x = tail_ptr)); auto.
Qed.

Lemma consumer_view_snoc h p es c e :
  consumer_view h p es c → consumer_view h p (es ++ [e]) c.
Proof.
  destruct c; simpl; try done.
  - intros (-> & w & es' & ->). split; [done|]. by exists w, (es' ++ [e]).
  - intros (-> & es' & ->). split; [done|]. by exists (es' ++ [e]).
Qed.

Lemma consumer_view_publish h p es c q :
  consumer_view h p es c → consumer_view h p (publish q es) c.
Proof.
  destruct c; simpl; try done.
  - intros (-> & w & es' & ->). split; [done|].
    exists w, (publish q es'). rewrite publish_cons. by case_decide.
  - intros (-> & es' & ->). split; [done|].
    exists (publish q es'). rewrite publish_cons. by case_decide.
Qed.

Lemma queued_snoc h p es c b q v :
  consumer_view h p es c → queued c (es ++ [(b, q, v)]) = queued c es ++ [v].
Proof.
  destruct c; simpl; rewrite ?fmap_app; try done.
  by intros (_ & es' & ->).
Qed.

Lemma queued_publish c q es : queued c (publish q es) = queued c es.
Proof. destruct c; simpl; by rewrite publish_values. Qed.

(** [construct]: the block becomes a node that only its producer knows. *)
Lemma inv_construct progs l1 l2 vs v cpc out (σ : state) p d es q :
  inv progs (Config (l1 ++ Producer vs (PAllocated q v) :: l2) cpc out) σ p d es →
  inv progs (Config (l1 ++ Producer vs (PConstructed q v) :: l2) cpc out)
    (log (Construct q) (set_heap (<[q := Node v nullptr]> (heap σ)) σ)) p d es.
Proof.
  intros [Htail Hhead Hlinked Hnodes Hview Hnd Hnn Hlive Hpend Hvals].
  expose.
  assert ((q ∉ p :: entry_ptrs es) ∧ (q ∉ l1 ≫= producer_block)
          ∧ (q ∉ l2 ≫= producer_block)) as (Hq & Hq1 & Hq2).
  { assert (NoDup (q :: (p :: entry_ptrs es) ++ (l1 ≫= producer_block)
                     ++ (l2 ≫= producer_block) ++ consumer_block cpc)) as Hq.
    { rearrange Hnd (@nil ptr). done. }
    apply NoDup_cons in Hq as [Hq _].
    rewrite !not_elem_of_app in Hq. tauto. }
  split; expose; try done.
  - by apply linked_insert_ne.
  - destruct Hnodes as (Hn1 & _ & Hn2).
    split; [by apply producer_nodes_insert|].
    split; [by rewrite lookup_insert_eq|]. by apply producer_nodes_insert.
  - by apply consumer_view_insert.
Qed.

(** [exchange]: the node joins the chain behind the old head; the link to
    it is still to be stored. *)
Lemma inv_exchange progs l1 l2 vs v cpc out (σ : state) p d es q :
  inv progs (Config (l1 ++ Producer vs (PConstructed q v) :: l2) cpc out) σ p d es →
  inv progs (Config (l1 ++ Producer vs (PExchanged (m_head σ) q) :: l2) cpc out)
    (set_head q σ) p d (es ++ [(false, q, v)]).
Proof.
  intros [Htail Hhead Hlinked Hnodes Hview Hnd Hnn Hlive Hpend Hvals].
  expose. destruct Hnodes as (Hn1 & Hq & Hn2).
  split; expose; rewrite ?entry_ptrs_app; try done.
  - by rewrite last_ptr_snoc.
  - by apply linked_snoc.
  - by apply consumer_view_snoc.
  - change (entry_ptrs [(false, q, v)]) with [q]. by rearrange Hnd (@nil ptr).
  - change (entry_ptrs [(false, q, v)]) with [q]. by rearrange Hnn (@nil ptr).
  - change (entry_ptrs [(false, q, v)]) with [q]. rearrange Hlive (@nil ptr).
    apply Hlive.
  - rewrite pending_snoc, Hpend, Hhead. solve_Permutation.
  - rewrite (queued_snoc _ _ _ _ _ _ _ Hview). by rearrange Hvals (@nil T).
Qed.

(** [store]: the pending link is published. *)
Lemma inv_link progs l1 l2 vs cpc out (σ : state) p d es x q :
  inv progs (Config (l1 ++ Producer vs (PExchanged x q) :: l2) cpc out) σ p d es →
  ∃ n, heap σ !! x = Some n
    ∧ inv progs (Config (l1 ++ Producer vs PIdle :: l2) cpc out)
        (set_heap (<[x := Node (data n) q]> (heap σ)) σ) p d (publish q es).
Proof.
  intros [Htail Hhead Hlinked Hnodes Hview Hnd Hnn Hlive Hpend Hvals].
  expose. destruct Hnodes as (Hn1 & _ & Hn2).
  assert ((x, q) ∈ pending p es) as Hin by (rewrite Hpend; set_solver).
  destruct (owned_disjoint _ _ _ Hnd) as (Hchain & Hcb & _).
  destruct (linked_publish _ _ _ _ _ _ Hchain Hin Hlinked) as (n & Hn & Hlinked').
  destruct (pending_elem _ _ _ _ Hin) as [Hx _].
  destruct (Hcb _ Hx) as [Hxb _].
  exists n. split; [done|].
  split; expose; rewrite ?publish_ptrs, ?queued_publish; try done.
  - by rewrite last_ptr_publish.
  - split; [apply producer_nodes_insert; [set_solver|done]|].
    split; [done|]. apply producer_nodes_insert; [set_solver|done].
  - by apply consumer_view_insert, consumer_view_publish.
  - apply (Permutation_cons_inv (a:=(x, q))).
    rewrite <-(pending_publish _ _ _ _ Hchain Hin), Hpend. solve_Permutation.
Qed.

(** The consumer reads [m_tail]. *)
Lemma inv_load_tail progs ps out (σ : state) p d es :
  inv progs (Config ps CIdle out) σ p d es →
  inv progs (Config ps (CLoadedTail (m_tail σ)) out) σ p d es.
Proof. intros [Htail ?????????]. by split. Qed.

(** The consumer reads the sentinel's [next]: null when the chain has no
    further entry or the link to it is still pending. *)
Lemma inv_load_next progs ps out (σ : state) p d es t :
  inv progs (Config ps (CLoadedTail t) out) σ p d es →
  ∃ nx, heap σ !! t = Some (Node d nx)
    ∧ (nx = nullptr → inv progs (Config ps CIdle out) σ p d es
         ∧ (es = [] ∨ ∃ q v es', es = (false, q, v) :: es'))
    ∧ (nx ≠ nullptr → inv progs (Config ps (CLoadedNext t nx) out) σ p d es).
Proof.
  intros [Htail Hhead Hlinked Hnodes Hview Hnd Hnn Hlive Hpend Hvals].
  simpl in Hview. subst t.
  destruct es as [|[[b q] v] es']; simpl in Hlinked.
  - exists nullptr. split; [done|]. split; [|done].
    intros _. split; [by split|by left].
  - destruct Hlinked as [Hp Hes]. exists (if b then q else nullptr).
    split; [done|]. destruct b.
    + split; [|intros _; split; try done; simpl; eauto].
      intros ->. destruct Hnn. unfold owned.
      change (entry_ptrs ((true, nullptr, v) :: es')) with (nullptr :: entry_ptrs es').
      set_solver.
    + split; [|done]. intros _. split; [by split|]. right. eauto.
Qed.

(** The consumer moves the value out of the first entry's node. *)
Lemma inv_move progs ps out (σ : state) p d es t n :
  inv progs (Config ps (CLoadedNext t n) out) σ p d es →
  ∃ nd es', heap σ !! n = Some nd ∧ es = (true, n, data nd) :: es'
    ∧ inv progs (Config ps (CMoved t n (data nd)) out)
        (set_heap (<[n := Node (moved_from (data nd)) (next nd)]> (heap σ)) σ)
        p d ((true, n, moved_from (data nd)) :: es').
Proof.
  intros [Htail Hhead Hlinked Hnodes Hview Hnd Hnn Hlive Hpend Hvals].
  simpl in Hview. destruct Hview as (-> & v & es' & ->).
  simpl in Hlinked. destruct Hlinked as [Hp Hes].
  destruct (linked_first _ _ _ _ Hes) as (nx & Hn).
  destruct (owned_disjoint _ _ _ Hnd) as (Hchain & Hcb & _).
  change (entry_ptrs ((true, n, v) :: es')) with (n :: entry_ptrs es') in *.
  pose proof Hchain as Hchain'. apply NoDup_cons in Hchain' as [Hpn Hchain'].
  exists (Node v nx), es'. split; [done|]. split; [done|]. simpl.
  split; expose; try done.
  - simpl. split; [rewrite lookup_insert_ne; [done|set_solver]|].
    by apply (linked_set_data _ _ v).
  - apply producer_nodes_insert; [|done]. intros Hin.
    destruct (Hcb n); [set_solver|]. set_solver.
  - simpl. eauto.
Qed.

(** The consumer advances [m_tail]: the first entry's node becomes the
    sentinel, the old sentinel is the consumer's to retire. *)
Lemma inv_store_tail progs ps out (σ : state) p d es t n r :
  inv progs (Config ps (CMoved t n r) out) σ p d es →
  ∃ es', es = (true, n, moved_from r) :: es'
    ∧ inv progs (Config ps (CStored t r) out) (set_tail n σ) n (moved_from r) es'.
Proof.
  intros [Htail Hhead Hlinked Hnodes Hview Hnd Hnn Hlive Hpend Hvals].
  simpl in Hview. destruct Hview as (-> & es' & ->).
  simpl in Hlinked. destruct Hlinked as [Hp Hes].
  exists es'. split; [done|].
  change (entry_ptrs ((true, n, moved_from r) :: es')) with (n :: entry_ptrs es') in *.
  split; expose; try done.
  - by rewrite last_ptr_cons in Hhead.
  - simpl. eauto.
  - simpl in *. by rearrange Hnd (@nil ptr).
  - simpl in *. by rearrange Hnn (@nil ptr).
  - simpl in *. rearrange Hlive (@nil ptr). apply Hlive.
Qed.

(** The consumer destroys the old sentinel. *)
Lemma inv_destroy progs ps out (σ : state) p d es t r :
  inv progs (Config ps (CStored t r) out) σ p d es →
  is_Some (heap σ !! t)
  ∧ inv progs (Config ps (CDestroyed t r) out)
      (log (Destroy t) (set_heap (delete t (heap σ)) σ)) p d es.
Proof.
  intros [Htail Hhead Hlinked Hnodes Hview Hnd Hnn Hlive Hpend Hvals].
  split; [done|].
  assert ((t ∉ p :: entry_ptrs es) ∧ (t ∉ ps ≫= producer_block)) as [Ht Htb].
  { unfold owned in Hnd. simpl in Hnd.
    assert (NoDup (t :: (p :: entry_ptrs es) ++ (ps ≫= producer_block))) as Hq.
    { rearrange Hnd (@nil ptr). done. }
    apply NoDup_cons in Hq as [Hq _]. rewrite not_elem_of_app in Hq. tauto. }
  split; expose; try done.
  - by apply linked_delete_ne.
  - by apply producer_nodes_delete.
Qed.

(** The consumer gives the old sentinel's block back and [pull] returns. *)
Lemma inv_deallocate progs ps out (σ : state) p d es t r :
  inv progs (Config ps (CDestroyed t r) out) σ p d es →
  t ∈ live (m_node_alloc σ)
  ∧ inv progs (Config ps CIdle (out ++ [r]))
      (log (Deallocate t) (set_alloc (deallocate t (m_node_alloc σ)) σ)) p d es.
Proof.
  intros [Htail Hhead Hlinked Hnodes Hview Hnd Hnn Hlive Hpend Hvals].
  split; [apply Hlive; unfold owned; simpl; set_solver|].
  unfold owned in *. simpl in *.
  assert (NoDup (t :: (p :: entry_ptrs es) ++ (ps ≫= producer_block) ++ [])) as Hq.
  { rearrange Hnd (@nil ptr). done. }
  apply NoDup_cons in Hq as [Ht Hq].
  split; expose; try done.
  - intros Hin. apply Hnn. simpl in *. set_solver.
  - intros q Hin. rewrite deallocate_live. apply elem_of_difference. split.
    + apply Hlive. simpl in *. set_solver.
    + simpl in *. set_solver.
  - simpl in *. by rearrange Hvals (@nil T).
Qed.

Lemma insert_middle {X} (l1 l2 : list X) (x y : X) :
  <[length l1 := y]> (l1 ++ x :: l2) = l1 ++ y :: l2.
Proof. rewrite insert_app_r_alt by lia. by rewrite Nat.sub_diag. Qed.

(** Any step of a producer keeps the invariant, unless its allocation
    fails. *)
Lemma producer_step_inv progs c (σ : state) p d es i pr :
  inv progs c σ p d es → producers c !! i = Some pr →
  match producer_step pr σ with
  | Ok pr' σ' =>
      ∃ es', inv progs (Config (<[i := pr']> (producers c)) (consumer c) (pulled c))
               σ' p d es'
  | Throw _ => True
  | _ => False
  end.
Proof.
  destruct c as [ps cpc out]. simpl. intros Hinv Hi.
  apply list_elem_of_split_length in Hi as (l1 & l2 & -> & ->).
  destruct pr as [td [|q v|q v|x q]]; unfold producer_step; simpl.
  - destruct td as [|v vs].
    + exists es. by rewrite insert_middle.
    + unfold bind, allocate_node, ret.
      destruct (allocate (m_node_alloc σ)) as [[q|] a'] eqn:Ha; [|done].
      exists es. rewrite insert_middle. by apply inv_allocate.
  - unfold bind, construct, ret.
    rewrite decide_True.
    + exists es. rewrite insert_middle. by apply inv_construct.
    + apply (inv_live _ _ _ _ _ _ Hinv). unfold owned. simpl.
      rewrite bind_app, bind_cons. simpl. set_solver.
  - unfold bind, exchange_head, ret.
    eexists. rewrite insert_middle. by apply inv_exchange.
  - destruct (inv_link _ _ _ _ _ _ _ _ _ _ _ _ Hinv) as (n & Hn & Hinv').
    unfold bind, store_next, ret. rewrite Hn.
    eexists. rewrite insert_middle. done.
Qed.

(** Any step of the consumer keeps the invariant.  When it is the return of
    an empty [pull()], the chain has no entry or the link to its first entry
    is still pending; every other step brings the consumer closer to the end
    of the chain. *)
Lemma consumer_turn_inv progs c (σ : state) p d es :
  inv progs c σ p d es →
  ∃ c' ev σ' p' d' es',
    consumer_turn c σ = Ok (c', ev) σ'
    ∧ inv progs c' σ' p' d' es'
    ∧ producers c' = producers c
    ∧ (ev = Some None →
         consumer c' = CIdle ∧ es' = es
         ∧ (es = [] ∨ ∃ q v es0, es = (false, q, v) :: es0))
    ∧ (ev ≠ Some None →
         distance (consumer c') es' < distance (consumer c) es).
Proof.
  destruct c as [ps [|t|t n|t n r|t r|t r] out]; intros Hinv;
    unfold consumer_turn, consumer_step, bind, ret; simpl.
  - eexists _, _, _, p, d, es. split; [done|]. rewrite app_nil_r.
    split; [by apply inv_load_tail|]. split; [done|]. split; [done|].
    intros _. simpl. lia.
  - destruct (inv_load_next _ _ _ _ _ _ _ _ Hinv) as (nx & Hnx & Hnull & Hnext).
    unfold load_next. rewrite Hnx. simpl. case_decide as Hz.
    + destruct (Hnull Hz) as [Hinv' Hes].
      eexists _, _, _, p, d, es. split; [done|]. rewrite app_nil_r.
      split; [done|]. split; [done|]. split; [done|]. done.
    + eexists _, _, _, p, d, es. split; [done|]. rewrite app_nil_r.
      split; [by apply Hnext|]. split; [done|]. split; [done|].
      intros _. simpl. lia.
  - destruct (inv_move _ _ _ _ _ _ _ _ _ Hinv) as (nd & es' & Hn & -> & Hinv').
    unfold move_data. rewrite Hn.
    eexists _, _, _, p, d, _. split; [done|]. rewrite app_nil_r.
    split; [done|]. split; [done|]. split; [done|].
    intros _. simpl. lia.
  - destruct (inv_store_tail _ _ _ _ _ _ _ _ _ _ Hinv) as (es' & -> & Hinv').
    eexists _, _, _, n, _, es'. split; [done|]. rewrite app_nil_r.
    split; [done|]. split; [done|]. split; [done|].
    intros _. simpl. lia.
  - destruct (inv_destroy _ _ _ _ _ _ _ _ _ Hinv) as ([nd Hnd] & Hinv').
    unfold destroy. rewrite Hnd.
    eexists _, _, _, p, d, es. split; [done|]. rewrite app_nil_r.
    split; [done|]. split; [done|]. split; [done|].
    intros _. simpl. lia.
  - destruct (inv_deallocate _ _ _ _ _ _ _ _ _ Hinv) as (Hlv & Hinv').
    unfold deallocate_node. rewrite decide_True by done.
    eexists _, _, _, p, d, es. split; [done|].
    split; [done|]. split; [done|]. split; [done|].
    intros _. simpl. lia.
Qed.

(** Whatever thread the scheduler picks, its step keeps the invariant. *)
Lemma step_inv progs th c (σ : state) p d es :
  inv progs c σ p d es →
  match step th c σ with
  | Ok c' σ' => ∃ p' d' es', inv progs c' σ' p' d' es'
  | Throw _ => True
  | _ => False
  end.
Proof.
  intros Hinv. destruct th as [i|]; simpl.
  - destruct (producers c !! i) as [pr|] eqn:Hi; [|unfold ret; eauto].
    pose proof (producer_step_inv _ _ _ _ _ _ _ _ Hinv Hi) as Hstep.
    unfold bind, ret. destruct (producer_step pr σ); try done.
    destruct Hstep as [es' Hinv']. eauto.
  - destruct (consumer_turn_inv _ _ _ _ _ _ Hinv)
      as (c' & ev & σ' & p' & d' & es' & Hturn & Hinv' & _).
    unfold bind, ret. rewrite Hturn. simpl. eauto.
Qed.

Lemma run_inv progs sched c (σ : state) p d es :
  inv progs c σ p d es →
  match run sched c σ with
  | Ok c' σ' => ∃ p' d' es', inv progs c' σ' p' d' es'
  | Throw _ => True
  | _ => False
  end.
Proof.
  revert c σ p d es. induction sched as [|th sched IH]; intros c σ p d es Hinv.
  - simpl. unfold ret. eauto.
  - simpl. unfold bind. pose proof (step_inv _ th _ _ _ _ _ Hinv) as Hstep.
    destruct (step th c σ) as [c1 σ1| | |]; try done.
    destruct Hstep as (p1 & d1 & es1 & Hinv1). by eapply IH.
Qed.

(** *** From construction to the final drain *)

Lemma start_blocks (progs : list (list T)) :
  producers (start progs) ≫= producer_block = [].
Proof.
  unfold start. cbn [producers].
  induction progs as [|vs progs IH]; [done|]. by rewrite fmap_cons, bind_cons, IH.
Qed.

Lemma start_links (progs : list (list T)) :
  producers (start progs) ≫= producer_link = [].
Proof.
  unfold start. cbn [producers].
  induction progs as [|vs progs IH]; [done|]. by rewrite fmap_cons, bind_cons, IH.
Qed.

Lemma start_values (progs : list (list T)) :
  producers (start progs) ≫= producer_values = concat progs.
Proof.
  unfold start. cbn [producers].
  induction progs as [|vs progs IH]; [done|]. by rewrite fmap_cons, bind_cons, IH.
Qed.

(** A freshly constructed queue with all threads at their start. *)
Lemma start_inv progs (σ : state) p d :
  is_queue σ p d [] → inv progs (start progs) σ p d [].
Proof.
  intros [Htail Hhead Hheap Hnd Hnn Hlv Hcalls].
  split; unfold owned; rewrite ?start_blocks, ?start_links, ?start_values;
    simpl in *; try done.
  - rewrite Hheap. by rewrite lookup_singleton_eq.
  - unfold start. simpl. apply Forall_fmap, Forall_true. done.
Qed.

Lemma quiescent_links (c : config) : quiescent c → producers c ≫= producer_link = [].
Proof.
  unfold quiescent. generalize (producers c). intros l.
  induction l as [|[td k] l IH]; [done|].
  rewrite Forall_cons. cbn [todo pc]. intros [[-> ->] Hl].
  rewrite bind_cons, IH by done. done.
Qed.

Lemma quiescent_values (c : config) :
  quiescent c → producers c ≫= producer_values = [].
Proof.
  unfold quiescent. generalize (producers c). intros l.
  induction l as [|[td k] l IH]; [done|].
  rewrite Forall_cons. cbn [todo pc]. intros [[-> ->] Hl].
  rewrite bind_cons, IH by done. done.
Qed.

(** All nodes of the chain are live objects. *)
Lemma linked_size h p d es :
  NoDup (p :: entry_ptrs es) → linked h p d es → S (length es) ≤ size h.
Proof.
  intros Hnd Hes.
  assert (∀ x, x ∈ p :: entry_ptrs es → x ∈ dom h) as Hdom.
  { clear Hnd. revert p d Hes.
    induction es as [|[[b q] v] es IH]; intros p d; simpl.
    - intros Hp x Hx. apply elem_of_dom. set_solver.
    - change (entry_ptrs ((b, q, v) :: es)) with (q :: entry_ptrs es).
      intros [Hp Hes] x [->|Hx]%elem_of_cons.
      + by apply elem_of_dom.
      + by eapply IH. }
  rewrite <-size_dom.
  replace (S (length es)) with (length (p :: entry_ptrs es))
    by (unfold entry_ptrs; simpl; by rewrite !length_fmap).
  rewrite <-(size_list_to_set (C:=gset ptr)) by done.
  apply subseteq_size. intros x Hx. apply Hdom. set_solver.
Qed.

(** With the producers gone, the consumer reaches the end of the chain, and
    by then it has obtained every value that was to be pushed. *)
Lemma drain_ok progs fuel c (σ : state) p d es :
  inv progs c σ p d es → quiescent c →
  distance (consumer c) es < fuel →
  ∃ c' σ', drain fuel c σ = Ok c' σ' ∧ pulled c' ≡ₚ concat progs.
Proof.
  revert c σ p d es. induction fuel as [|fuel IH]; intros c σ p d es Hinv Hq Hfuel;
    [lia|].
  destruct (consumer_turn_inv _ _ _ _ _ _ Hinv)
    as (c' & ev & σ' & p' & d' & es' & Hturn & Hinv' & Hps & Hempty & Hcloser).
  assert (quiescent c') as Hq' by (unfold quiescent; by rewrite Hps).
  simpl. unfold bind. rewrite Hturn. simpl.
  assert (ev = Some None ∨ ev ≠ Some None) as [->|Hev]
    by (destruct ev as [[v|]|]; auto).
  - exists c', σ'. split; [done|].
    destruct (Hempty eq_refl) as (Hc' & -> & Hes).
    pose proof (inv_pending _ _ _ _ _ _ Hinv) as Hpend.
    rewrite quiescent_links in Hpend by done.
    apply Permutation_nil_r in Hpend.
    destruct Hes as [->|(q & v & es0 & ->)]; [|done].
    pose proof (inv_values _ _ _ _ _ _ Hinv') as Hvals.
    rewrite Hc', quiescent_values in Hvals by done. simpl in Hvals.
    by rewrite !app_nil_r in Hvals.
  - specialize (Hcloser Hev).
    destruct (IH c' σ' p' d' es' Hinv' Hq') as (c'' & σ'' & Hdrain & Hout); [lia|].
    exists c'', σ''. split; [|done].
    destruct ev as [[v|]|]; done.
Qed.

(** C2 — Conservation under concurrency: let any number of producers push
    the value lists [progs] while one consumer pulls, under an arbitrary
    schedule of their atomic steps.  No schedule leads to undefined
    behaviour.  Unless an allocation failed, once every producer has
    returned from its last push the final drain returns, and the values the
    consumer has obtained, during the run and the drain together, are a
    rearrangement of all values pushed: none lost, none twice. *)
Theorem conservation (a : A) (σ0 : state) (progs : list (list T))
    (sched : list thread) :
  mpsc_queue (raw a) = Ok tt σ0 →
  match run sched (start progs) σ0 with
  | Ok c σ =>
      quiescent c →
      ∃ c' σ', final_drain c σ = Ok c' σ' ∧ pulled c' ≡ₚ concat progs
  | Throw _ => True
  | _ => False
  end.
Proof.
  intros Hnew. destruct (allocate a) as [[p|] a'] eqn:Ha;
    [|by rewrite (mpsc_queue_throw _ _ Ha) in Hnew].
  destruct (mpsc_queue_ok _ _ _ Ha) as (σ & Hrun & Hq0 & _).
  assert (σ = σ0) as -> by congruence.
  pose proof (run_inv progs sched _ _ _ _ _ (start_inv progs _ _ _ Hq0)) as Hinv.
  destruct (run sched (start progs) σ0) as [c σ| | |]; try done.
  destruct Hinv as (p' & d' & es' & Hinv). intros Hquiet.
  unfold final_drain. eapply drain_ok; [done|done|].
  destruct (owned_disjoint _ _ _ (inv_owned _ _ _ _ _ _ Hinv)) as (Hchain & _).
  pose proof (linked_size _ _ _ _ Hchain (inv_linked _ _ _ _ _ _ Hinv)).
  destruct (consumer c); simpl; lia.
Qed.

End interleavings.

(** ** The overloads of [push] *)

(** C7 — The two overloads: a call whose argument is an lvalue (or const)
    selects the by-copy overload, which is well-formed and runs [push_impl]
    on a copy of the argument.  A call whose argument is a non-const rvalue
    selects the by-move overload, whose body hands the parameter's name, an
    lvalue, to the [T &&] parameter of [push_impl]: it is ill-formed, so
    nothing is ever enqueued by move. *)
Theorem push_by_move_is_ill_formed {T : Type} {VT : ValueType T}
    {A : Type} {AL : Allocator A} (value : T) :
  (∀ is_const, push_call (A:=A) lvalue is_const value = Some (push value))
  ∧ (∀ c, push_call (A:=A) c true value = Some (push value))
  ∧ push_call (A:=A) prvalue false value = None
  ∧ push_call (A:=A) xvalue false value = None
  ∧ well_formed push_const_ref = true
  ∧ well_formed push_rvalue_ref = false.
Proof.
  split; [by intros []|]. split; [by intros []|]. by repeat split.
Qed.

(** ** Concrete runs *)

Lemma reachable_push_all {T : Type} {VT : ValueType T} {A : Type} {AL : Allocator A}
    (vs : list T) (σ σ' : state (T:=T) (A:=A)) :
  reachable σ → push_all vs σ = Ok tt σ' → reachable σ'.
Proof.
  revert σ. induction vs as [|v vs IH]; intros σ Hreach Hrun.
  - by injection Hrun as <-.
  - simpl in Hrun. unfold bind in Hrun.
    destruct (push v σ) as [[] σ1| | |] eqn:Hpush; try done.
    eapply IH; [|done]. by eapply reach_push.
Qed.

Lemma demo_fresh_run : mpsc_queue (raw (arena_new 8)) = Ok tt demo_fresh.
Proof. vm_compute. reflexivity. Qed.

Lemma demo_pushed_run : push_all [10; 20; 30]%Z demo_fresh = Ok tt demo_pushed.
Proof. vm_compute. reflexivity. Qed.

Lemma demo_cleared_run : clear demo_pushed = Ok tt demo_cleared.
Proof. vm_compute. reflexivity. Qed.

Lemma demo_fresh_reachable : reachable demo_fresh.
Proof. exact (reach_new (arena_new 8) demo_fresh demo_fresh_run). Qed.

Lemma demo_fresh_drained : drained demo_fresh.
Proof. exists (Node 0%Z 0%N). split; reflexivity. Qed.

Lemma demo_pushed_reachable : reachable demo_pushed.
Proof.
  exact (reachable_push_all _ _ _ demo_fresh_reachable demo_pushed_run).
Qed.

Lemma demo_concurrent_run :
  run demo_sched (start demo_progs) demo_fresh = Ok demo_threads demo_shared.
Proof. vm_compute. reflexivity. Qed.

(** A fresh [mpsc_queue<int>]: the first pull is empty. *)
Lemma pull_fresh_is_empty_witness :
  mpsc_queue (raw (arena_new 8)) = Ok tt demo_fresh
  ∧ pull demo_fresh = Ok None demo_fresh.
Proof.
  split; [exact demo_fresh_run|].
  exact (pull_fresh_is_empty (arena_new 8) demo_fresh demo_fresh_run).
Defined.

(** Push 10, 20, 30: three pulls return them in order, the fourth is
    empty. *)
Lemma single_producer_order_witness :
  ∃ σ2, pull_n 3 demo_pushed = Ok [Some 10; Some 20; Some 30]%Z σ2
    ∧ pull σ2 = Ok None σ2.
Proof.
  exact (single_producer_order demo_fresh demo_pushed [10; 20; 30]%Z
           demo_fresh_reachable demo_fresh_drained demo_pushed_run).
Defined.


(** Construct, push 10, 20, 30, drain, destroy: four allocations, four
    deallocations. *)
Lemma no_leak_no_double_free_witness :
  ∃ σ2 σ3,
    pull_n 3 demo_pushed = Ok [Some 10; Some 20; Some 30]%Z σ2 ∧ drained σ2
    ∧ destructor σ2 = Ok tt σ3
    ∧ count_allocate (calls σ3) = 4
    ∧ count_deallocate (calls σ3) = count_allocate (calls σ3)
    ∧ outstanding (calls σ3) = Some ∅
    ∧ heap σ3 = ∅.
Proof.
  exact (no_leak_no_double_free (arena_new 8) [10; 20; 30]%Z demo_fresh demo_pushed
           demo_fresh_run demo_pushed_run).
Defined.

(** Destroying the queue that still holds 10, 20, 30. *)
Lemma destructor_frees_final_sentinel_witness :
  ∃ σ1 σ2 l,
    clear demo_pushed = Ok tt σ1 ∧ destructor demo_pushed = Ok tt σ2
    ∧ m_head σ1 = l ∧ m_tail σ1 = l ∧ dom (heap σ1) = {[l]}
    ∧ calls σ2 = calls σ1 ++ [Destroy l; Deallocate l]
    ∧ heap σ2 = ∅
    ∧ live (m_node_alloc σ2) = live (m_node_alloc σ1) ∖ {[l]}.
Proof.
  exact (destructor_frees_final_sentinel demo_pushed demo_pushed_reachable).
Defined.

(** After [clear()] both cursors are on node 4, the last one pushed. *)
Lemma clear_cursors_meet_witness :
  m_tail demo_cleared = m_head demo_cleared
  ∧ m_head demo_cleared = m_head demo_pushed
  ∧ (∃ n, heap demo_cleared !! m_tail demo_cleared = Some n ∧ next n = nullptr)
  ∧ ∃ σ'', destructor demo_pushed = Ok tt σ''
      ∧ calls σ'' = calls demo_cleared
          ++ [Destroy (m_tail demo_cleared); Deallocate (m_tail demo_cleared)].
Proof.
  exact (clear_cursors_meet demo_pushed demo_cleared
           demo_pushed_reachable demo_cleared_run).
Defined.

(** Three more pulls on the fresh queue change nothing. *)
Lemma pull_drained_is_noop_witness :
  pull_n 3 demo_fresh = Ok [None; None; None] demo_fresh.
Proof. exact (pull_drained_is_noop demo_fresh 3 demo_fresh_drained). Defined.

(** A push when the allocator has nothing left. *)
Lemma push_allocation_failure_witness :
  ∃ σ', push 7%Z demo_exhausted = Throw σ'
    ∧ heap σ' = heap demo_exhausted ∧ m_head σ' = m_head demo_exhausted
    ∧ m_tail σ' = m_tail demo_exhausted
    ∧ calls σ' = calls demo_exhausted
    ∧ m_node_alloc σ' = m_node_alloc demo_exhausted
    ∧ ∀ k, returned (pull_n k σ') = returned (pull_n k demo_exhausted).
Proof.
  exact (push_allocation_failure demo_exhausted 7%Z (m_node_alloc demo_exhausted)
           eq_refl).
Defined.

(** Two producers and the consumer under [demo_sched]: the drain ends with
    the consumer holding 10, 20, 1, 2 in some order. *)
Lemma conservation_witness :
  ∃ c' σ', final_drain demo_threads demo_shared = Ok c' σ'
    ∧ pulled c' ≡ₚ [10; 20; 1; 2]%Z.
Proof.
  pose proof (conservation (arena_new 8) demo_fresh demo_progs demo_sched
                demo_fresh_run) as Hrun.
  rewrite demo_concurrent_run in Hrun. apply Hrun.
  repeat constructor.
Defined.

(** * Further properties *)

(** ** The queue as a list, single-threaded *)

Section refinement.
Context {T : Type} {VT : ValueType T} {A : Type} {AL : Allocator A}.
Context {ALaws : AllocatorLaws A}.

Abbreviation state := (state (T:=T) (A:=A)).
Abbreviation node := (node (T:=T)).

(** Walking a heap that agrees with a chain on the chain's nodes yields the
    chain's values. *)
Lemma contents_from_chain fuel (h : gmap ptr node) p (d : T) items :
  NoDup (p :: items.*1) → nullptr ∉ p :: items.*1 →
  (∀ x, x ∈ p :: items.*1 → h !! x = chain_heap p d items !! x) →
  length items < fuel →
  contents_from fuel h p = items.*2.
Proof.
  revert fuel p d. induction items as [|[q v] items IH]; intros fuel p d Hnd Hnn Hh Hfuel.
  - destruct fuel as [|fuel]; [simpl in Hfuel; lia|]. simpl.
    rewrite Hh by set_solver. simpl. by rewrite lookup_singleton_eq.
  - destruct fuel as [|fuel]; [simpl in Hfuel; lia|].
    rewrite fmap_cons in Hnd, Hnn. simpl in Hnd, Hnn.
    apply NoDup_cons in Hnd as [Hp Hnd].
    assert (q ≠ nullptr) as Hq by set_solver.
    assert (∀ x, x ∈ q :: items.*1 →
              h !! x = chain_heap q v items !! x) as Hh'.
    { intros x Hx. rewrite Hh by (rewrite fmap_cons; set_solver). simpl.
      rewrite lookup_insert_ne; [done|set_solver]. }
    simpl. rewrite (Hh p) by set_solver. simpl. rewrite lookup_insert_eq. simpl.
    rewrite decide_False by done.
    rewrite Hh' by set_solver. rewrite chain_heap_lookup_first.
    f_equal. apply (IH fuel q v); [done|set_solver|done|simpl in Hfuel; lia].
Qed.

Lemma contents_is_queue (σ : state) p (d : T) items :
  is_queue σ p d items → contents σ = items.*2.
Proof.
  intros [Htail Hhead Hheap Hnd Hnn _ _]. unfold contents.
  rewrite Htail. apply (contents_from_chain _ _ _ d); try done.
  - intros x _. by rewrite Hheap.
  - rewrite Hheap, chain_heap_size by done. lia.
Qed.

(** X1 — [push] appends: on every state a single thread can reach, a
    [push(v)] that gets its node returns and puts [v] behind everything
    already queued; one whose allocation fails throws and leaves the queued
    values as they are.  It never runs into undefined behaviour. *)
Theorem push_appends (σ : state) (v : T) :
  reachable σ →
  match push v σ with
  | Ok _ σ' => contents σ' = contents σ ++ [v]
  | Throw σ' => contents σ' = contents σ
  | _ => False
  end.
Proof.
  intros Hreach. destruct (reachable_is_queue _ Hreach) as (p & d & items & Hq).
  rewrite (contents_is_queue _ _ _ _ Hq).
  destruct (allocate (m_node_alloc σ)) as [[q|] a'] eqn:Ha.
  - destruct (push_ok _ _ _ _ v _ _ Hq Ha) as (σ' & -> & Hq' & _).
    by rewrite (contents_is_queue _ _ _ _ Hq'), fmap_app.
  - rewrite (push_throw _ _ _ Ha).
    apply (contents_is_queue _ p d). apply is_queue_set_alloc; [|done].
    by apply allocate_fail in Ha.
Qed.

(** X2 — [pull] takes from the front: on every state a single thread can
    reach, [pull()] returns the oldest queued value and leaves the rest in
    order, or returns empty when nothing is queued.  It never throws and
    never runs into undefined behaviour. *)
Theorem pull_takes_front (σ : state) :
  reachable σ →
  ∃ σ', pull σ = Ok (head (contents σ)) σ'
    ∧ contents σ' = tail (contents σ).
Proof.
  intros Hreach. destruct (reachable_is_queue _ Hreach) as (p & d & items & Hq).
  rewrite (contents_is_queue _ _ _ _ Hq).
  destruct items as [|[q v] items].
  - exists σ. split; [by eapply pull_empty|].
    by rewrite (contents_is_queue _ _ _ _ Hq).
  - destruct (pull_cons _ _ _ _ _ _ Hq) as (σ' & Hpull & Hq' & _).
    exists σ'. split; [done|]. by rewrite (contents_is_queue _ _ _ _ Hq').
Qed.

(** X3 — Destroying a queue that still holds values: from every state a
    single thread can reach, drained or not, the destructor returns with no
    node left; in the log of allocator calls since construction every block
    allocated has been deallocated exactly once. *)
Theorem destructor_frees_everything (σ : state) :
  reachable σ →
  ∃ σ', destructor σ = Ok tt σ'
    ∧ heap σ' = ∅
    ∧ outstanding (calls σ') = Some ∅
    ∧ count_deallocate (calls σ') = count_allocate (calls σ').
Proof.
  intros Hreach. destruct (reachable_is_queue _ Hreach) as (p & d & items & Hq).
  destruct (destructor_ok _ _ _ _ Hq)
    as (σ1 & σ2 & _ & Hdtor & _ & _ & _ & Hheap & Hout & _).
  exists σ2. split; [done|]. split; [done|]. split; [done|].
  by rewrite (outstanding_count _ Hout).
Qed.

(** X4 — Node accounting: in every state a single thread can reach, the
    queue owns one node more than it holds values (the sentinel), and these
    nodes are exactly the blocks that the log of allocator calls shows as
    allocated and not yet deallocated: nothing has leaked and nothing was
    freed early. *)
Theorem nodes_are_accounted_for (σ : state) :
  reachable σ →
  size (heap σ) = S (length (contents σ))
  ∧ outstanding (calls σ) = Some (dom (heap σ))
  ∧ count_allocate (calls σ) = count_deallocate (calls σ) + S (length (contents σ)).
Proof.
  intros Hreach. destruct (reachable_is_queue _ Hreach) as (p & d & items & Hq).
  rewrite (contents_is_queue _ _ _ _ Hq), length_fmap.
  destruct Hq as [Htail Hhead Hheap Hnd Hnn Hlv Hcalls].
  assert (size (heap σ) = S (length items)) as Hsize
    by (by rewrite Hheap, chain_heap_size).
  split; [done|]. split; [by rewrite Hheap, chain_heap_dom|].
  pose proof (outstanding_from_count _ _ _ Hcalls) as Hcount.
  rewrite size_empty, size_list_to_set in Hcount by done.
  simpl in Hcount. rewrite length_fmap in Hcount. lia.
Qed.

(** X5 — The publication gap: once [push_impl] has exchanged [m_head] but
    not yet stored the link, the new value is not among the values a
    consumer can reach, so a queue that was drained still pulls empty; the
    store of the link is what appends the value. *)
Theorem publication_gap (σ σ1 : state) (v : T) (prev_head new_node : ptr) :
  reachable σ →
  push_exchange v σ = Ok (prev_head, new_node) σ1 →
  contents σ1 = contents σ
  ∧ (drained σ → pull σ1 = Ok None σ1)
  ∧ ∃ σ2, store_next prev_head new_node σ1 = Ok tt σ2
      ∧ push v σ = Ok tt σ2
      ∧ contents σ2 = contents σ ++ [v].
Proof.
  intros Hreach Hex. destruct (reachable_is_queue _ Hreach) as (p & d & items & Hq).
  pose proof (contents_is_queue _ _ _ _ Hq) as Hcontents.
  destruct (allocate (m_node_alloc σ)) as [[q|] a'] eqn:Ha; cycle 1.
  { unfold push_exchange, bind, allocate_node in Hex. by rewrite Ha in Hex. }
  destruct (push_ok _ _ _ _ v _ _ Hq Ha) as (σ2 & Hpush & Hq2 & _).
  destruct (allocate_fresh _ _ _ Ha) as (Hnull & Hfresh & Hlive).
  destruct Hq as [Htail Hhead Hheap Hnd Hnn Hlv Hcalls].
  assert (q ∉ p :: items.*1) as Hqn by (intros Hin; by apply Hfresh, Hlv).
  unfold push_exchange, bind, ret, allocate_node, construct, exchange_head in Hex.
  rewrite Ha in Hex. simpl in Hex.
  rewrite decide_True in Hex by (rewrite Hlive; set_solver).
  injection Hex as <- <- <-.
  assert (∀ x, x ∈ p :: items.*1 →
            <[q:=node_with nullptr v]> (heap σ) !! x = chain_heap p d items !! x)
    as Hagree.
  { intros x Hx. rewrite lookup_insert_ne by (intros ->; done). by rewrite Hheap. }
  split; [|split].
  - rewrite Hcontents. unfold contents. simpl. rewrite Htail.
    apply (contents_from_chain _ _ _ d); try done.
    rewrite map_size_insert_None
      by (rewrite Hheap; by apply chain_heap_lookup_None).
    rewrite Hheap, chain_heap_size by done. lia.
  - intros (n & Hn & Hnext).
    unfold pull, bind, ret, load_tail, load_next. simpl.
    rewrite Htail in *. rewrite lookup_insert_ne by (intros ->; set_solver).
    rewrite Hn. simpl. by rewrite decide_True.
  - exists σ2. split; [|split; [done|]].
    + rewrite <-Hpush. unfold push, push_impl, bind, allocate_node, construct,
        exchange_head. rewrite Ha. simpl.
      by rewrite decide_True by (rewrite Hlive; set_solver).
    + by rewrite (contents_is_queue _ _ _ _ Hq2), Hcontents, fmap_app.
Qed.

End refinement.

(** ** Interleaved executions, value by value *)

Section orders.
Context {T : Type} {VT : ValueType T} {A : Type} {AL : Allocator A}.
Context {ALaws : AllocatorLaws A}.

Abbreviation state := (state (T:=T) (A:=A)).
Abbreviation node := (node (T:=T)).
Abbreviation entries := (list (bool * ptr * T)).
Abbreviation config := (config (T:=T)).
Abbreviation producer := (producer (T:=T)).

Implicit Types (p q x : ptr) (d v : T) (es : entries) (owner : T → nat).

(** X6 — Nothing twice, nothing invented: at every point of every run, the
    values the consumer has obtained so far are some of the values the
    producers were to push, each at most as often as it was to be pushed. *)
Theorem pulled_within_pushed (a : A) (σ0 σ : state) (progs : list (list T))
    (sched : list thread) (c : config) :
  mpsc_queue (raw a) = Ok tt σ0 →
  run sched (start progs) σ0 = Ok c σ →
  pulled c ⊆+ concat progs.
Proof.
  intros Hnew Hrun. destruct (allocate a) as [[p|] a'] eqn:Ha;
    [|by rewrite (mpsc_queue_throw _ _ Ha) in Hnew].
  destruct (mpsc_queue_ok _ _ _ Ha) as (σ' & Hnew' & Hq0 & _).
  assert (σ' = σ0) as -> by congruence.
  pose proof (run_inv progs sched _ _ _ _ _ (start_inv progs _ _ _ Hq0)) as Hinv.
  rewrite Hrun in Hinv. destruct Hinv as (p' & d' & es' & Hinv).
  rewrite <-(inv_values _ _ _ _ _ _ Hinv). apply submseteq_inserts_r. done.
Qed.

(** *** One producer's values stay in order *)

Lemma of_producer_app owner i (l k : list T) :
  of_producer owner i (l ++ k) = of_producer owner i l ++ of_producer owner i k.
Proof. apply filter_app. Qed.

(** A step of the consumer that leaves the history as it is. *)
Lemma ordered_consumer owner progs (c c' : config) es es' :
  producers c' = producers c → history c' es' = history c es →
  ordered owner progs c es → ordered owner progs c' es'.
Proof. unfold ordered. by intros -> ->. Qed.

(** A step of producer [i] that appends [new] to the history and hands
    over as many of its own values. *)
Lemma ordered_producer owner progs ps cpc out es es' i pr pr' new :
  ps !! i = Some pr →
  history (Config (<[i := pr']> ps) cpc out) es'
    = history (Config ps cpc out) es ++ new →
  producer_values pr = new ++ producer_values pr' →
  tagged owner progs →
  ordered owner progs (Config ps cpc out) es →
  ordered owner progs (Config (<[i := pr']> ps) cpc out) es'.
Proof.
  intros Hi Hhist Hvals Htag [Hlen Hord]. simpl in Hlen, Hord.
  split; [simpl; by rewrite length_insert|].
  simpl. intros j pr0 vs Hj Hvs. rewrite Hhist, of_producer_app.
  destruct (decide (j = i)) as [->|Hne].
  - rewrite list_lookup_insert_eq in Hj by (by eapply lookup_lt_Some).
    injection Hj as <-. specialize (Hord i pr vs Hi Hvs).
    rewrite Hvals in Hord.
    assert (of_producer owner i new = new) as ->; [|by rewrite <-app_assoc].
    specialize (Htag i vs Hvs). rewrite <-Hord in Htag.
    rewrite !Forall_app in Htag. destruct Htag as (_ & Hnew & _).
    unfold of_producer. clear -Hnew.
    induction new as [|w new IH]; [done|].
    apply Forall_cons in Hnew as [Hw Hnew].
    rewrite filter_cons_True by done. by rewrite IH.
  - rewrite list_lookup_insert_ne in Hj by done.
    assert (∃ vsi, progs !! i = Some vsi) as [vsi Hvsi].
    { apply lookup_lt_is_Some. rewrite <-Hlen. by eapply lookup_lt_Some. }
    pose proof (Hord i pr vsi Hi Hvsi) as Hi'.
    specialize (Htag i vsi Hvsi). rewrite <-Hi', Hvals in Htag.
    rewrite !Forall_app in Htag. destruct Htag as (_ & Hnew & _).
    assert (of_producer owner j new = []) as ->.
    { unfold of_producer. clear -Hnew Hne.
      induction new as [|w new IH]; [done|].
      apply Forall_cons in Hnew as [Hw Hnew].
      rewrite filter_cons_False by (rewrite Hw; intros ?; by apply Hne). by apply IH. }
    rewrite app_nil_r. by apply Hord.
Qed.

(** Any step of a producer keeps its values and everybody else's in
    order. *)
Lemma producer_step_ordered owner progs c (σ : state) p d es i pr :
  tagged owner progs →
  inv progs c σ p d es → ordered owner progs c es →
  producers c !! i = Some pr →
  match producer_step pr σ with
  | Ok pr' σ' =>
      ∃ es',
        inv progs (Config (<[i := pr']> (producers c)) (consumer c) (pulled c))
          σ' p d es'
        ∧ ordered owner progs
            (Config (<[i := pr']> (producers c)) (consumer c) (pulled c)) es'
  | Throw _ => True
  | _ => False
  end.
Proof.
  destruct c as [ps cpc out]. simpl. intros Htag Hinv Hord Hi.
  pose proof Hi as Hi'.
  apply list_elem_of_split_length in Hi' as (l1 & l2 & Hps & Hlen).
  destruct pr as [td [|q v|q v|x q]]; unfold producer_step; simpl.
  - destruct td as [|v vs].
    + exists es. rewrite list_insert_id by done. done.
    + unfold bind, allocate_node, ret.
      destruct (allocate (m_node_alloc σ)) as [[q|] a'] eqn:Ha; [|done].
      exists es. split.
      * subst ps i. rewrite insert_middle. by apply inv_allocate.
      * apply (ordered_producer _ _ _ _ _ es _ _ _ _ [] Hi); try done.
        by rewrite app_nil_r.
  - unfold bind, construct, ret.
    rewrite decide_True.
    + exists es. split.
      * subst ps i. rewrite insert_middle. by apply inv_construct.
      * apply (ordered_producer _ _ _ _ _ es _ _ _ _ [] Hi); try done.
        by rewrite app_nil_r.
    + apply (inv_live _ _ _ _ _ _ Hinv). unfold owned. simpl. subst ps.
      rewrite bind_app, bind_cons. simpl. set_solver.
  - unfold bind, exchange_head, ret.
    exists (es ++ [(false, q, v)]). split.
    + subst ps i. rewrite insert_middle. by apply inv_exchange.
    + apply (ordered_producer _ _ _ _ _ es _ _ _ _ [v] Hi); try done.
      unfold history. simpl.
      rewrite (queued_snoc _ _ _ _ _ _ _ (inv_view _ _ _ _ _ _ Hinv)).
      by rewrite !app_assoc.
  - subst ps i.
    destruct (inv_link _ _ _ _ _ _ _ _ _ _ _ _ Hinv) as (n & Hn & Hinv').
    unfold bind, store_next, ret. rewrite Hn.
    exists (publish q es). split.
    + by rewrite insert_middle.
    + apply (ordered_producer _ _ _ _ _ es _ _ _ _ [] Hi); try done.
      unfold history. simpl. by rewrite queued_publish, app_nil_r.
Qed.

(** Any step of the consumer leaves the history as it is: it only moves the
    boundary between what is obtained, held and queued. *)
Lemma consumer_turn_ordered progs c (σ : state) p d es :
  inv progs c σ p d es →
  ∃ c' ev σ' p' d' es',
    consumer_turn c σ = Ok (c', ev) σ'
    ∧ inv progs c' σ' p' d' es'
    ∧ producers c' = producers c
    ∧ history c' es' = history c es
    ∧ (ev = Some None →
         consumer c' = CIdle ∧ es' = es
         ∧ (es = [] ∨ ∃ q v es0, es = (false, q, v) :: es0))
    ∧ (ev ≠ Some None →
         distance (consumer c') es' < distance (consumer c) es).
Proof.
  destruct c as [ps [|t|t n|t n r|t r|t r] out]; intros Hinv;
    unfold consumer_turn, consumer_step, bind, ret, history; simpl.
  - eexists _, _, _, p, d, es. split; [done|]. rewrite app_nil_r.
    split; [by apply inv_load_tail|]. split; [done|]. split; [done|].
    split; [done|]. intros _. simpl. lia.
  - destruct (inv_load_next _ _ _ _ _ _ _ _ Hinv) as (nx & Hnx & Hnull & Hnext).
    unfold load_next. rewrite Hnx. simpl. case_decide as Hz.
    + destruct (Hnull Hz) as [Hinv' Hes].
      eexists _, _, _, p, d, es. split; [done|]. rewrite app_nil_r.
      split; [done|]. split; [done|]. split; [done|]. split; [done|]. done.
    + eexists _, _, _, p, d, es. split; [done|]. rewrite app_nil_r.
      split; [by apply Hnext|]. split; [done|]. split; [done|].
      split; [done|]. intros _. simpl. lia.
  - destruct (inv_move _ _ _ _ _ _ _ _ _ Hinv) as (nd & es' & Hn & -> & Hinv').
    unfold move_data. rewrite Hn.
    eexists _, _, _, p, d, _. split; [done|]. rewrite app_nil_r.
    split; [done|]. split; [done|]. split; [done|]. split; [done|].
    intros _. simpl. lia.
  - destruct (inv_store_tail _ _ _ _ _ _ _ _ _ _ Hinv) as (es' & -> & Hinv').
    eexists _, _, _, n, _, es'. split; [done|]. rewrite app_nil_r.
    split; [done|]. split; [done|]. split; [done|]. split; [done|].
    intros _. simpl. lia.
  - destruct (inv_destroy _ _ _ _ _ _ _ _ _ Hinv) as ([nd Hnd] & Hinv').
    unfold destroy. rewrite Hnd.
    eexists _, _, _, p, d, es. split; [done|]. rewrite app_nil_r.
    split; [done|]. split; [done|]. split; [done|]. split; [done|].
    intros _. simpl. lia.
  - destruct (inv_deallocate _ _ _ _ _ _ _ _ _ Hinv) as (Hlv & Hinv').
    unfold deallocate_node. rewrite decide_True by done.
    eexists _, _, _, p, d, es. split; [done|].
    split; [done|]. split; [done|]. split; [simpl; by rewrite <-app_assoc|].
    split; [done|]. intros _. simpl. lia.
Qed.

Lemma run_ordered owner progs sched c (σ : state) p d es :
  tagged owner progs →
  inv progs c σ p d es → ordered owner progs c es →
  match run sched c σ with
  | Ok c' σ' => ∃ p' d' es', inv progs c' σ' p' d' es' ∧ ordered owner progs c' es'
  | Throw _ => True
  | _ => False
  end.
Proof.
  intros Htag. revert c σ p d es.
  induction sched as [|th sched IH]; intros c σ p d es Hinv Hord.
  - simpl. unfold ret. eauto.
  - simpl. unfold bind at 1.
    assert (match step th c σ with
            | Ok c1 σ1 =>
                ∃ p1 d1 es1, inv progs c1 σ1 p1 d1 es1 ∧ ordered owner progs c1 es1
            | Throw _ => True
            | _ => False
            end) as Hstep.
    { destruct th as [i|]; simpl.
      - destruct (producers c !! i) as [pr|] eqn:Hi; [|unfold ret; eauto].
        pose proof (producer_step_ordered _ _ _ _ _ _ _ _ _ Htag Hinv Hord Hi) as Hs.
        unfold bind, ret. destruct (producer_step pr σ); try done.
        destruct Hs as (es' & ? & ?). eauto.
      - destruct (consumer_turn_ordered _ _ _ _ _ _ Hinv)
          as (c' & ev & σ' & p' & d' & es' & Hturn & Hinv' & Hps & Hhist & _).
        unfold bind, ret. rewrite Hturn. simpl.
        exists p', d', es'. split; [done|]. by eapply ordered_consumer. }
    destruct (step th c σ) as [c1 σ1| | |]; try done.
    destruct Hstep as (p1 & d1 & es1 & Hinv1 & Hord1). by eapply IH.
Qed.

Lemma start_ordered owner (progs : list (list T)) :
  ordered owner progs (start progs) [].
Proof.
  split; [unfold start; simpl; by rewrite length_fmap|].
  unfold start, history. simpl. intros i pr vs Hi Hvs.
  rewrite list_lookup_fmap, Hvs in Hi. by injection Hi as <-.
Qed.

(** X7 — Per-producer order: let every value name the producer that is to
    push it.  Then at every point of every run, the values of producer [i]
    among those the consumer has obtained are, in the order obtained, the
    first values of [i]'s program: no value of a producer overtakes an
    earlier one of the same producer. *)
Theorem producer_order_preserved (owner : T → nat) (a : A) (σ0 σ : state)
    (progs : list (list T)) (sched : list thread) (c : config)
    (i : nat) (vs : list T) :
  tagged owner progs →
  mpsc_queue (raw a) = Ok tt σ0 →
  run sched (start progs) σ0 = Ok c σ →
  progs !! i = Some vs →
  of_producer owner i (pulled c) `prefix_of` vs.
Proof.
  intros Htag Hnew Hrun Hvs. destruct (allocate a) as [[p|] a'] eqn:Ha;
    [|by rewrite (mpsc_queue_throw _ _ Ha) in Hnew].
  destruct (mpsc_queue_ok _ _ _ Ha) as (σ' & Hnew' & Hq0 & _).
  assert (σ' = σ0) as -> by congruence.
  pose proof (run_ordered owner progs sched _ _ _ _ _ Htag
                (start_inv progs _ _ _ Hq0) (start_ordered owner progs)) as Hinv.
  rewrite Hrun in Hinv. destruct Hinv as (p' & d' & es' & Hinv & Hlen & Hord).
  assert (∃ pr, producers c !! i = Some pr) as [pr Hpr].
  { apply lookup_lt_is_Some. rewrite Hlen. by eapply lookup_lt_Some. }
  specialize (Hord i pr vs Hpr Hvs). unfold history in Hord.
  rewrite of_producer_app, <-app_assoc in Hord. by eexists.
Qed.

(** With the producers gone, the consumer reaches the end of the chain, and
    by then it has every producer's values in that producer's order. *)
Lemma drain_ordered owner progs fuel c (σ : state) p d es :
  inv progs c σ p d es → ordered owner progs c es → quiescent c →
  distance (consumer c) es < fuel →
  ∃ c' σ', drain fuel c σ = Ok c' σ'
    ∧ ∀ i vs, progs !! i = Some vs → of_producer owner i (pulled c') = vs.
Proof.
  revert c σ p d es.
  induction fuel as [|fuel IH]; intros c σ p d es Hinv Hord Hq Hfuel; [lia|].
  destruct (consumer_turn_ordered _ _ _ _ _ _ Hinv)
    as (c' & ev & σ' & p' & d' & es' & Hturn & Hinv' & Hps & Hhist & Hempty & Hcloser).
  assert (quiescent c') as Hq' by (unfold quiescent; by rewrite Hps).
  assert (ordered owner progs c' es') as Hord' by (by eapply ordered_consumer).
  simpl. unfold bind. rewrite Hturn. simpl.
  assert (ev = Some None ∨ ev ≠ Some None) as [->|Hev]
    by (destruct ev as [[v|]|]; auto).
  - exists c', σ'. split; [done|].
    destruct (Hempty eq_refl) as (Hc' & -> & Hes).
    pose proof (inv_pending _ _ _ _ _ _ Hinv) as Hpend.
    rewrite quiescent_links in Hpend by done.
    apply Permutation_nil_r in Hpend.
    destruct Hes as [->|(q & v & es0 & ->)]; [|done].
    destruct Hord' as [Hlen Hord']. intros i vs Hvs.
    assert (∃ pr, producers c' !! i = Some pr) as [pr Hpr].
    { apply lookup_lt_is_Some. rewrite Hlen. by eapply lookup_lt_Some. }
    specialize (Hord' i pr vs Hpr Hvs). unfold history in Hord'.
    rewrite Hc' in Hord'. simpl in Hord'. rewrite app_nil_r in Hord'.
    assert (producer_values pr = []) as Hpv.
    { unfold quiescent in Hq'. rewrite Forall_forall in Hq'.
      destruct (Hq' pr) as [Htd Hpc]; [by eapply list_elem_of_lookup_2|].
      unfold producer_values. by rewrite Hpc, Htd. }
    by rewrite Hpv, app_nil_r in Hord'.
  - specialize (Hcloser Hev).
    destruct (IH c' σ' p' d' es' Hinv' Hord' Hq') as (c'' & σ'' & Hdrain & Hout);
      [lia|].
    exists c'', σ''. split; [|done].
    destruct ev as [[v|]|]; done.
Qed.

(** X8 — Every producer's values arrive complete and in order: let every
    value name the producer that is to push it.  After any run in which all
    producers have returned from their last push, the final drain returns,
    and the values of producer [i] among those the consumer has obtained
    are exactly [i]'s program, in the order pushed. *)
Theorem producer_order_complete (owner : T → nat) (a : A) (σ0 σ : state)
    (progs : list (list T)) (sched : list thread) (c : config) :
  tagged owner progs →
  mpsc_queue (raw a) = Ok tt σ0 →
  run sched (start progs) σ0 = Ok c σ →
  quiescent c →
  ∃ c' σ', final_drain c σ = Ok c' σ'
    ∧ ∀ i vs, progs !! i = Some vs → of_producer owner i (pulled c') = vs.
Proof.
  intros Htag Hnew Hrun Hquiet. destruct (allocate a) as [[p|] a'] eqn:Ha;
    [|by rewrite (mpsc_queue_throw _ _ Ha) in Hnew].
  destruct (mpsc_queue_ok _ _ _ Ha) as (σ' & Hnew' & Hq0 & _).
  assert (σ' = σ0) as -> by congruence.
  pose proof (run_ordered owner progs sched _ _ _ _ _ Htag
                (start_inv progs _ _ _ Hq0) (start_ordered owner progs)) as Hinv.
  rewrite Hrun in Hinv. destruct Hinv as (p' & d' & es' & Hinv & Hord).
  unfold final_drain. eapply drain_ordered; [done|done|done|].
  destruct (owned_disjoint _ _ _ (inv_owned _ _ _ _ _ _ Hinv)) as (Hchain & _).
  pose proof (linked_size _ _ _ _ Hchain (inv_linked _ _ _ _ _ _ Hinv)).
  destruct (consumer c); simpl; lia.
Qed.

End orders.

(** ** The slab allocator *)

Section slab_properties.
Context {params : slab_params}.

Implicit Types (s : slab_allocator) (p q : ptr) (ps : list ptr).

Local Open Scope N_scope.

Lemma wrap_small x : x < 2 ^ 64 → wrap x = x.
Proof. intros Hx. unfold wrap. by apply N.mod_small. Qed.

(** *** The free list *)

(** Giving back one non-null block appends it to the free list. *)
Lemma slab_deallocate_one p s :
  p ≠ nullptr →
  slab_deallocate p 1 s
  = SlabAllocator (m_pools s) (m_free_list s ++ [p]) (m_pool_idx s) (m_block_idx s).
Proof.
  intros Hp. unfold slab_deallocate.
  rewrite decide_False by (intros [?|?]; done).
  simpl. rewrite N.mul_0_l. unfold wrap. rewrite N.Div0.mod_0_l.
  by rewrite N.add_0_r.
Qed.

Lemma slab_free_all_free_list ps s :
  slab_free_all ps s
  = SlabAllocator (m_pools s) (m_free_list s ++ filter (λ p, p ≠ nullptr) ps)
      (m_pool_idx s) (m_block_idx s).
Proof.
  revert s. induction ps as [|p ps IH]; intros s.
  - simpl. rewrite app_nil_r. by destruct s.
  - unfold slab_free_all in *. simpl. rewrite IH.
    destruct (decide (p = nullptr)) as [->|Hp].
    + rewrite filter_cons_False by (intros ?; done).
      unfold slab_deallocate at 1 2 3 4. by rewrite decide_True by auto.
    + rewrite filter_cons_True by done. rewrite slab_deallocate_one by done.
      simpl. by rewrite <-app_assoc.
Qed.

(** Single blocks come off the free list last in, first out. *)
Lemma slab_allocate_n_free_list pools free l idx b :
  slab_allocate_n (length l) (SlabAllocator pools (free ++ l) idx b)
  = Some (reverse l, SlabAllocator pools free idx b).
Proof.
  induction l as [|x l IH] using rev_ind.
  - simpl. by rewrite app_nil_r.
  - rewrite length_app, Nat.add_1_r. simpl.
    unfold slab_allocate at 1. simpl.
    rewrite decide_True by (split; [done|]; rewrite app_assoc; by destruct (free ++ l)).
    rewrite app_assoc, last_snoc, removelast_last. simpl.
    by rewrite IH, reverse_snoc.
Qed.

(** X9 — Reuse, last in first out: after any blocks are given back one at
    a time, as many single allocations as non-null blocks were given back
    return those blocks, the one given back last first, touch no pool, and
    leave the allocator exactly as it was before; null pointers given back
    are ignored. *)
Theorem slab_reuses_freed_blocks (ps : list ptr) (s : slab_allocator) :
  slab_allocate_n (length (filter (λ p, p ≠ nullptr) ps)) (slab_free_all ps s)
  = Some (reverse (filter (λ p, p ≠ nullptr) ps), s).
Proof.
  rewrite slab_free_all_free_list, slab_allocate_n_free_list. by destruct s.
Qed.

(** X10 — Giving back a run of blocks: [deallocate(p, num)] puts the
    addresses [p], [p + SlabSize], ... on the free list, [SlabSize] bytes
    apart, and the next [num] single allocations return them from the
    highest down; but blocks are [SlabSize * sizeof(T)] bytes each, so
    unless the elements are single bytes the address [p + SlabSize] that
    comes back lies strictly inside the block at [p]. *)
Theorem slab_frees_runs_bytewise (p : ptr) (num : N) (s : slab_allocator) :
  p ≠ nullptr → num * SlabSize < 2 ^ 64 →
  slab_allocate_n (N.to_nat num) (slab_deallocate p num s)
  = Some (reverse ((λ i, p + N.of_nat i * SlabSize) <$> seq 0 (N.to_nat num)), s)
  ∧ (2 ≤ num → 2 ≤ sizeof_T → 0 < SlabSize →
       p + SlabSize ∈ (λ i, p + N.of_nat i * SlabSize) <$> seq 0 (N.to_nat num)
       ∧ p < p + SlabSize < p + block_bytes).
Proof.
  intros Hp Hsmall. split.
  - unfold slab_deallocate. destruct (decide (num = 0)) as [->|Hnum].
    + rewrite decide_True by auto. done.
    + rewrite decide_False by (intros [?|?]; done).
      assert ((λ i, p + wrap (N.of_nat i * SlabSize)) <$> seq 0 (N.to_nat num)
              = (λ i, p + N.of_nat i * SlabSize) <$> seq 0 (N.to_nat num)) as ->.
      { apply list_fmap_ext. intros i x Hx. apply lookup_seq in Hx as [-> Hi].
        simpl. rewrite wrap_small; [done|]. nia. }
      pose proof (slab_allocate_n_free_list (m_pools s) (m_free_list s)
        ((λ i, p + N.of_nat i * SlabSize) <$> seq 0 (N.to_nat num))
        (m_pool_idx s) (m_block_idx s)) as Hrun.
      rewrite length_fmap, length_seq in Hrun. rewrite Hrun. by destruct s.
  - intros Hnum Hsize Hslab. split.
    + apply list_elem_of_fmap. exists 1%nat. split; [simpl; lia|].
      apply elem_of_seq. lia.
    + unfold block_bytes. nia.
Qed.

(** *** Carving blocks out of pools *)

Lemma PoolCapacity_pos :
  static_assert → 1 ≤ sizeof_T → 1 ≤ PoolCapacity.
Proof.
  unfold static_assert, PoolCapacity. intros (Hle & _ & Hsz) Ht.
  apply N.div_le_lower_bound; lia.
Qed.

Lemma PoolCapacity_le : PoolCapacity ≤ TotalCapacity.
Proof.
  unfold PoolCapacity. destruct (decide (SlabSize = 0)) as [->|Hs].
  - rewrite N.div_0_r. lia.
  - apply N.Div0.div_le_upper_bound. nia.
Qed.


Lemma slab_allocate_n_app (a b : nat) (s : slab_allocator) :
  slab_allocate_n (a + b) s
  = match slab_allocate_n a s with
    | Some (l, s') =>
        match slab_allocate_n b s' with
        | Some (l', s'') => Some (l ++ l', s'')
        | None => None
        end
    | None => None
    end.
Proof.
  revert s. induction a as [|a IH]; intros s; simpl.
  - by destruct (slab_allocate_n b s) as [[l' s'']|].
  - destruct (slab_allocate 1 s) as [[p s']|]; [|done].
    rewrite IH. destruct (slab_allocate_n a s') as [[l s'']|]; [|done].
    by destruct (slab_allocate_n b s'') as [[l' s3]|].
Qed.

(** A single allocation inside the last pool, away from its end. *)
Lemma slab_bump_same (pre : list ptr) (base : ptr) (idx b : N) :
  b + 1 < PoolCapacity → PoolCapacity < 2 ^ 64 →
  slab_allocate 1 (SlabAllocator (pre ++ [base]) [] idx b)
  = Some (base + b * block_bytes, SlabAllocator (pre ++ [base]) [] idx (b + 1)).
Proof.
  intros Hb Hcap. unfold slab_allocate. simpl.
  rewrite (decide_False (P := pre ++ [base] = [])) by (by destruct pre). simpl.
  rewrite wrap_small by lia. rewrite decide_False by lia. simpl.
  rewrite last_snoc. simpl. rewrite decide_True by lia. by rewrite wrap_small by lia.
Qed.

(** The first allocation of all creates pool 0. *)
Lemma slab_bump_first (idx b : N) :
  2 ≤ PoolCapacity → PoolCapacity < 2 ^ 64 →
  slab_allocate 1 (SlabAllocator [] [] idx b)
  = Some (block_address 0 0, SlabAllocator [place 0%nat] [] 0 1).
Proof.
  intros Hcap Hmax. unfold slab_allocate. simpl.
  rewrite (wrap_small (0 + 1)) by lia.
  rewrite (decide_False (P := PoolCapacity ≤ 0 + 1)) by lia. simpl.
  rewrite decide_True by lia. by rewrite wrap_small by lia.
Qed.

(** A single allocation at the end of the last pool opens the next one. *)
Lemma slab_bump_next (pre : list ptr) (base : ptr) (idx b : N) :
  PoolCapacity ≤ b + 1 → b + 1 < 2 ^ 64 → 1 ≤ PoolCapacity →
  slab_allocate 1 (SlabAllocator (pre ++ [base]) [] idx b)
  = Some (block_address (S (length pre)) 0,
          SlabAllocator ((pre ++ [base]) ++ [place (S (length pre))]) []
            (wrap (idx + 1)) 1).
Proof.
  intros Hb Hmax Hcap. unfold slab_allocate. simpl.
  rewrite (decide_False (P := pre ++ [base] = [])) by (by destruct pre). simpl.
  rewrite wrap_small by lia. rewrite decide_True by lia. simpl.
  unfold emplace_back. rewrite last_snoc. simpl.
  rewrite decide_True by lia. rewrite (wrap_small (0 + 1)) by lia.
  rewrite length_app. simpl. by rewrite Nat.add_1_r.
Qed.

(** Single allocations inside the last pool, from block [b] upwards. *)
Lemma slab_fill_rest (pre : list ptr) (base : ptr) (idx b : N) (j : nat) :
  b + N.of_nat j < PoolCapacity → PoolCapacity < 2 ^ 64 →
  slab_allocate_n j (SlabAllocator (pre ++ [base]) [] idx b)
  = Some ((λ i, base + (b + N.of_nat i) * block_bytes) <$> seq 0 j,
          SlabAllocator (pre ++ [base]) [] idx (b + N.of_nat j)).
Proof.
  revert b. induction j as [|j IH]; intros b Hb Hcap.
  - simpl. by rewrite N.add_0_r.
  - cbn [slab_allocate_n]. rewrite slab_bump_same by lia.
    rewrite IH by lia.
    rewrite <-cons_seq, fmap_cons, <-fmap_S_seq, <-list_fmap_compose.
    f_equal. f_equal.
    + f_equal; [f_equal; f_equal; lia|].
      apply list_fmap_ext. intros i x _. simpl. f_equal. f_equal. lia.
    + f_equal. lia.
Qed.

Lemma slab_fill_pool (k : nat) (s : slab_allocator) :
  2 ≤ PoolCapacity → PoolCapacity < 2 ^ 64 →
  slab_full k s →
  ∃ s', slab_allocate_n (N.to_nat (PoolCapacity - 1)) s
        = Some ((λ b, block_address k (N.of_nat b))
                  <$> seq 0 (N.to_nat (PoolCapacity - 1)), s')
    ∧ slab_full (S k) s'.
Proof.
  intros Hcap Hmax (Hfree & Hpools & Hidx).
  destruct s as [pools free pidx bidx]. simpl in *. subst free pools.
  assert (∃ j, N.to_nat (PoolCapacity - 1) = S j) as [j Hj]
    by (exists (pred (N.to_nat (PoolCapacity - 1))); lia).
  rewrite Hj.
  assert (∃ pidx',
    slab_allocate 1 (SlabAllocator (place <$> seq 0 k) [] pidx bidx)
    = Some (block_address k 0,
            SlabAllocator ((place <$> seq 0 k) ++ [place k]) [] pidx' 1))
    as [pidx' Hfirst].
  { destruct k as [|k].
    - eexists. by apply slab_bump_first; lia.
    - rewrite seq_S, fmap_app. simpl. eexists.
      rewrite slab_bump_next by (rewrite ?Hidx by done; lia).
      by rewrite length_fmap, length_seq. }
  simpl. rewrite Hfirst.
  rewrite slab_fill_rest by lia.
  eexists. split.
  - do 2 f_equal. unfold block_address. rewrite N.mul_0_l.
    f_equal. rewrite <-fmap_S_seq, <-list_fmap_compose.
    apply list_fmap_ext. intros i x _. simpl. f_equal. f_equal. lia.
  - split; [done|]. split; [by rewrite seq_S, fmap_app|].
    intros _. simpl. lia.
Qed.

Lemma slab_fill_pools (m k : nat) (s : slab_allocator) :
  2 ≤ PoolCapacity → PoolCapacity < 2 ^ 64 →
  slab_full k s →
  ∃ s', slab_allocate_n (m * N.to_nat (PoolCapacity - 1)) s
        = Some (seq k m ≫= (λ k, (λ b, block_address k (N.of_nat b))
                                   <$> seq 0 (N.to_nat (PoolCapacity - 1))), s')
    ∧ slab_full (k + m) s'.
Proof.
  intros Hcap Hmax. revert k s. induction m as [|m IH]; intros k s Hfull.
  - exists s. split; [done|]. by rewrite Nat.add_0_r.
  - destruct (slab_fill_pool k s Hcap Hmax Hfull) as (s1 & Hpool & Hfull1).
    destruct (IH (S k) s1 Hfull1) as (s2 & Hrest & Hfull2).
    exists s2. split.
    + change (S m * N.to_nat (PoolCapacity - 1))%nat
        with (N.to_nat (PoolCapacity - 1) + m * N.to_nat (PoolCapacity - 1))%nat.
      rewrite slab_allocate_n_app, Hpool, Hrest. by rewrite <-cons_seq, bind_cons.
    + by replace (k + S m)%nat with (S k + m)%nat by lia.
Qed.

(** X12 — Pool by pool, one block short: from a new allocator with at
    least two blocks per pool, single allocations return the blocks of pool
    0, then of pool 1, and so on, each pool in ascending order; but every
    pool serves only its first [PoolCapacity - 1] blocks: the next pool is
    opened while the last block of the current one is still unused. *)
Theorem slab_serves_pools_one_short (m : nat) :
  2 ≤ PoolCapacity → TotalCapacity < 2 ^ 64 →
  ∃ s', slab_allocate_n (m * N.to_nat (PoolCapacity - 1)) slab_new
        = Some (seq 0 m ≫= (λ k, (λ b, block_address k (N.of_nat b))
                                   <$> seq 0 (N.to_nat (PoolCapacity - 1))), s')
    ∧ m_pools s' = place <$> seq 0 m.
Proof.
  intros Hcap Hmax. pose proof PoolCapacity_le as Hle.
  destruct (slab_fill_pools m 0 slab_new Hcap) as (s' & Hrun & Hfull);
    [lia|by repeat split|].
  exists s'. split; [done|]. apply Hfull.
Qed.

(** *** Serving a client that gives back only what it holds *)

Lemma block_bytes_pos :
  static_assert → 1 ≤ sizeof_T → 1 ≤ block_bytes.
Proof. unfold static_assert, block_bytes. intros (_ & _ & Hsz) Ht. nia. Qed.

Lemma block_address_inj (k k' : nat) (b b' : N) :
  pools_apart → 1 ≤ block_bytes →
  b < PoolCapacity → b' < PoolCapacity →
  block_address k b = block_address k' b' → k = k' ∧ b = b'.
Proof.
  intros [_ Hapart] HB Hb Hb'. unfold block_address. intros Heq.
  assert (b * block_bytes < PoolCapacity * block_bytes)
    by (apply N.mul_lt_mono_pos_r; lia).
  assert (b' * block_bytes < PoolCapacity * block_bytes)
    by (apply N.mul_lt_mono_pos_r; lia).
  destruct (decide (k = k')) as [->|Hne].
  - split; [done|]. nia.
  - destruct (Hapart k k' Hne); lia.
Qed.

Lemma block_address_not_null (k : nat) (b : N) :
  pools_apart → block_address k b ≠ nullptr.
Proof.
  intros [Hpos _]. specialize (Hpos k). unfold block_address, nullptr. lia.
Qed.

(** The first allocation of all when a pool has a single block: pool 0 is
    created and left unused. *)
Lemma slab_bump_first_unit (idx b : N) :
  PoolCapacity = 1 →
  slab_allocate 1 (SlabAllocator [] [] idx b)
  = Some (block_address 1 0,
          SlabAllocator [place 0%nat; place 1%nat] [] (wrap (0 + 1)) 1).
Proof.
  intros Hcap. unfold slab_allocate. simpl.
  rewrite (wrap_small (0 + 1)) by lia.
  rewrite (decide_True (P := PoolCapacity ≤ 0 + 1)) by lia. simpl.
  rewrite decide_True by lia. by rewrite (wrap_small (0 + 1)) by lia.
Qed.

(** An allocation that does not come off the free list carves the next
    block: block [b] of the last pool [k], either the next one of the pool
    that was last before, or block 0 of a pool created by the call. *)
Lemma slab_bump_shape (s : slab_allocator) :
  1 ≤ PoolCapacity → PoolCapacity < 2 ^ 64 →
  m_free_list s = [] →
  m_pools s = place <$> seq 0 (length (m_pools s)) →
  m_block_idx s + 1 < 2 ^ 64 →
  ∃ k b pidx,
    slab_allocate 1 s
    = Some (block_address k b,
            SlabAllocator (place <$> seq 0 (S k)) [] pidx (b + 1))
    ∧ ((S k = length (m_pools s) ∧ b = m_block_idx s ∧ b + 1 < PoolCapacity)
       ∨ ((length (m_pools s) < S k)%nat ∧ b = 0)).
Proof.
  intros Hcap Hmax Hfree Hpools Hidx.
  destruct s as [pools free pidx bidx].
  cbn [m_pools m_free_list m_block_idx m_pool_idx] in *. subst free.
  destruct (length pools) as [|n] eqn:Hlen.
  - apply nil_length_inv in Hlen. subst pools.
    destruct (decide (PoolCapacity = 1)) as [Hone|Hmore].
    + exists 1%nat, 0, (wrap (0 + 1)). split; [|right; split; [lia|done]].
      by rewrite slab_bump_first_unit.
    + exists 0%nat, 0, 0. split; [|right; split; [lia|done]].
      by rewrite slab_bump_first by lia.
  - rewrite seq_S, fmap_app in Hpools. simpl in Hpools. rewrite Hpools.
    destruct (decide (PoolCapacity ≤ bidx + 1)) as [Hend|Hroom].
    + exists (S n), 0, (wrap (pidx + 1)). split; [|right; split; [lia|done]].
      rewrite slab_bump_next by lia. rewrite length_fmap, length_seq.
      by rewrite (seq_S (S n)), fmap_app, (seq_S n), fmap_app.
    + exists n, bidx, pidx. split; [|left; split; [done|split; [done|lia]]].
      rewrite slab_bump_same by lia. by rewrite (seq_S n), fmap_app.
Qed.

Lemma slab_allocate_ok (s : slab_allocator) (held : gset ptr) :
  static_assert → 1 ≤ sizeof_T → TotalCapacity < 2 ^ 64 → pools_apart →
  slab_ok s held →
  ∃ p s', slab_allocate 1 s = Some (p, s')
    ∧ p ≠ nullptr ∧ (p ∉ held) ∧ slab_ok s' ({[p]} ∪ held).
Proof.
  intros Hassert Ht Hmax Hapart [Hpools [Hidx Hidx'] Hnodup Hdisj Hcarved].
  pose proof (PoolCapacity_pos Hassert Ht) as Hcap.
  pose proof PoolCapacity_le as Hle.
  pose proof (block_bytes_pos Hassert Ht) as HB.
  destruct (m_free_list s) as [|x l _] eqn:Hfree using rev_ind.
  - destruct (slab_bump_shape s) as (k & b & pidx & Hrun & Hcase);
      [lia|lia|done|done|done|].
    assert (b < PoolCapacity) as Hb by (destruct Hcase as [(_&_&?)|[_ ->]]; lia).
    assert (∀ k' b', carved s k' b' → (k', b') ≠ (k, b)) as Hnew.
    { intros k' b' (Hk' & Hb' & Hlast) [= -> ->].
      destruct Hcase as [(Hk & -> & _)|[Hk _]]; [|lia].
      specialize (Hlast Hk). lia. }
    assert (∀ k' b', carved s k' b' →
      carved (SlabAllocator (place <$> seq 0 (S k)) [] pidx (b + 1)) k' b')
      as Hkeep.
    { intros k' b' (Hk' & Hb' & Hlast). unfold carved. simpl.
      rewrite length_fmap, length_seq. repeat split; [lia|done|].
      intros [= ->]. destruct Hcase as [(Hk & -> & _)|[Hk _]]; [|lia].
      specialize (Hlast Hk). lia. }
    eexists (block_address k b), _. split; [done|].
    split; [by apply block_address_not_null|]. split.
    + intros Hin. destruct (Hcarved (block_address k b)) as (k' & b' & Hc & Heq);
        [by left|].
      apply block_address_inj in Heq as [<- <-]; [|done|done|done|apply Hc].
      by eapply Hnew.
    + split; simpl.
      * by rewrite length_fmap, length_seq.
      * destruct Hcase as [(_&_&?)|[_ ->]]; lia.
      * constructor.
      * intros x Hx. by apply elem_of_nil in Hx.
      * intros x [Hx|Hx]; [|by apply elem_of_nil in Hx].
        apply elem_of_union in Hx as [Hx|Hx].
        -- apply elem_of_singleton in Hx as ->. exists k, b. split; [|done].
           unfold carved. simpl. rewrite length_fmap, length_seq.
           repeat split; [lia|done|lia].
        -- destruct (Hcarved x) as (k' & b' & Hc & ->); [by left|].
           exists k', b'. split; [by apply Hkeep|done].
  - assert (slab_allocate 1 s
            = Some (x, SlabAllocator (m_pools s) l (m_pool_idx s) (m_block_idx s)))
      as Hrun.
    { unfold slab_allocate. rewrite decide_True; last first.
      { split; [done|]. rewrite Hfree. by destruct l. }
      by rewrite Hfree, last_snoc, removelast_last. }
    apply NoDup_app in Hnodup as (Hl & Hlx & _).
    destruct (Hcarved x) as (k & b & Hc & Hx);
      [right; apply elem_of_app; right; by apply list_elem_of_singleton|].
    eexists x, _. split; [done|].
    split; [subst x; by apply block_address_not_null|]. split.
    + apply Hdisj, elem_of_app. right. by apply list_elem_of_singleton.
    + split; simpl; [done|done|done| |].
      * intros y Hy Hin. apply elem_of_union in Hin as [Hin|Hin].
        -- apply elem_of_singleton in Hin as ->.
           apply (Hlx x Hy). by apply list_elem_of_singleton.
        -- apply (Hdisj y); [|done]. apply elem_of_app. by left.
      * intros y Hy. destruct (Hcarved y) as (k' & b' & Hc' & ->);
          [|by exists k', b'].
        destruct Hy as [Hy|Hy].
        -- apply elem_of_union in Hy as [Hy|Hy]; [|by left].
           apply elem_of_singleton in Hy as ->. right.
           apply elem_of_app. right. by apply list_elem_of_singleton.
        -- right. apply elem_of_app. by left.
Qed.

Lemma slab_deallocate_ok (s : slab_allocator) (held : gset ptr) (p : ptr) :
  pools_apart → slab_ok s held → p ∈ held →
  slab_ok (slab_deallocate p 1 s) (held ∖ {[p]}).
Proof.
  intros Hapart [Hpools Hidx Hnodup Hdisj Hcarved] Hp.
  assert (p ≠ nullptr) as Hnull.
  { destruct (Hcarved p) as (k & b & _ & ->); [by left|].
    by apply block_address_not_null. }
  rewrite slab_deallocate_one by done.
  split; simpl; [done|done| | |].
  - apply NoDup_app. split; [done|]. split; [|apply NoDup_singleton].
    intros x Hx Hxp. apply list_elem_of_singleton in Hxp as ->.
    by apply (Hdisj p).
  - intros x Hx Hin. apply elem_of_difference in Hin as [Hin Hne].
    apply elem_of_app in Hx as [Hx|Hx].
    + by apply (Hdisj x).
    + apply list_elem_of_singleton in Hx as ->. by apply Hne, elem_of_singleton.
  - intros x Hx. destruct (Hcarved x) as (k & b & Hc & ->); [|by exists k, b].
    destruct Hx as [Hx|Hx].
    + apply elem_of_difference in Hx as [Hx _]. by left.
    + apply elem_of_app in Hx as [Hx|Hx]; [by right|].
      apply list_elem_of_singleton in Hx as ->. by left.
Qed.

Lemma slab_serves_ok (s : slab_allocator) (held : gset ptr) :
  static_assert → 1 ≤ sizeof_T → TotalCapacity < 2 ^ 64 → pools_apart →
  slab_serves s held → slab_ok s held.
Proof.
  intros Hassert Ht Hmax Hapart Hserves.
  induction Hserves as [|s held p s' _ IH Hrun|s held p _ IH Hp].
  - split; simpl; [done|lia|constructor| |].
    + intros x Hx. by apply elem_of_nil in Hx.
    + intros x [Hx|Hx]; [by apply elem_of_empty in Hx|by apply elem_of_nil in Hx].
  - destruct (slab_allocate_ok s held Hassert Ht Hmax Hapart IH)
      as (p' & s'' & Hrun' & _ & _ & Hok).
    rewrite Hrun in Hrun'. by injection Hrun' as -> ->.
  - by apply slab_deallocate_ok.
Qed.

(** X13 — The allocator keeps its promise to a client that uses single
    blocks the way the queue does (it allocates, and gives back only blocks
    it holds): whatever the history, the next [allocate(1)] is defined,
    returns a pointer that is not null and not one of the blocks the client
    still holds, and the client can go on.  The pools must lie at non-null
    addresses apart from each other, as the heap places them. *)
Theorem slab_never_hands_out_a_held_block (s : slab_allocator) (held : gset ptr) :
  static_assert → 1 ≤ sizeof_T → TotalCapacity < 2 ^ 64 → pools_apart →
  slab_serves s held →
  ∃ p s', slab_allocate 1 s = Some (p, s')
    ∧ p ≠ nullptr ∧ (p ∉ held) ∧ slab_serves s' ({[p]} ∪ held).
Proof.
  intros Hassert Ht Hmax Hapart Hserves.
  destruct (slab_allocate_ok s held Hassert Ht Hmax Hapart)
    as (p & s' & Hrun & Hnull & Hfresh & _);
    [by apply slab_serves_ok|].
  exists p, s'. repeat split; try done. by eapply serves_allocate.
Qed.

End slab_properties.

(** ** Further concrete runs *)

Lemma demo_exchanged_run :
  push_exchange 7%Z demo_fresh = Ok (1%N, 2%N) demo_exchanged.
Proof. vm_compute. reflexivity. Qed.

Lemma demo_tagged : tagged demo_owner demo_progs.
Proof.
  intros [|[|i]] vs Hvs; simpl in Hvs; [| |done]; injection Hvs as <-;
    by repeat constructor.
Qed.

Lemma demo_quiescent : quiescent demo_threads.
Proof. by repeat constructor. Qed.

Lemma demo_static_assert : static_assert (params:=demo_slab).
Proof. by repeat split. Qed.

Lemma demo_pools_apart : pools_apart (params:=demo_slab).
Proof.
  split; [intros k; simpl; lia|]. intros k k' Hne.
  change (PoolCapacity (params:=demo_slab)) with 64%N.
  change (block_bytes (params:=demo_slab)) with 1024%N. simpl. lia.
Qed.

Lemma demo_slab_serves :
  slab_serves (params:=demo_slab) demo_slab_state demo_slab_held.
Proof.
  assert (demo_slab_held = ({[5120%N]} ∪ ({[4096%N]} ∪ ∅)) ∖ {[4096%N]})
    as -> by (unfold demo_slab_held; set_solver).
  change demo_slab_state
    with (slab_deallocate (params:=demo_slab) 4096%N 1%N (SlabAllocator [4096%N] [] 0 2)).
  apply (serves_deallocate (params:=demo_slab) (SlabAllocator [4096%N] [] 0 2)
           ({[5120%N]} ∪ ({[4096%N]} ∪ ∅)) 4096%N); [|set_solver].
  apply (serves_allocate (params:=demo_slab) (SlabAllocator [4096%N] [] 0 1)
           ({[4096%N]} ∪ ∅) 5120%N); [|reflexivity].
  apply (serves_allocate (params:=demo_slab) slab_new ∅ 4096%N); [|reflexivity].
  apply serves_new.
Qed.

(** Pushing 40 onto the queue that holds 10, 20, 30. *)
Lemma push_appends_witness :
  match push 40%Z demo_pushed with
  | Ok _ σ' => contents σ' = [10; 20; 30; 40]%Z
  | Throw σ' => contents σ' = [10; 20; 30]%Z
  | _ => False
  end.
Proof. exact (push_appends demo_pushed 40%Z demo_pushed_reachable). Defined.

(** Pulling from the queue that holds 10, 20, 30. *)
Lemma pull_takes_front_witness :
  ∃ σ', pull demo_pushed = Ok (Some 10%Z) σ' ∧ contents σ' = [20; 30]%Z.
Proof. exact (pull_takes_front demo_pushed demo_pushed_reachable). Defined.

(** Destroying the queue that holds 10, 20, 30. *)
Lemma destructor_frees_everything_witness :
  ∃ σ', destructor demo_pushed = Ok tt σ'
    ∧ heap σ' = ∅
    ∧ outstanding (calls σ') = Some ∅
    ∧ count_deallocate (calls σ') = count_allocate (calls σ').
Proof. exact (destructor_frees_everything demo_pushed demo_pushed_reachable). Defined.

(** The queue that holds 10, 20, 30 owns four nodes. *)
Lemma nodes_are_accounted_for_witness :
  size (heap demo_pushed) = 4%nat
  ∧ outstanding (calls demo_pushed) = Some (dom (heap demo_pushed))
  ∧ count_allocate (calls demo_pushed)
    = (count_deallocate (calls demo_pushed) + 4)%nat.
Proof. exact (nodes_are_accounted_for demo_pushed demo_pushed_reachable). Defined.

(** A push of 7 on the fresh queue, stopped after the exchange. *)
Lemma publication_gap_witness :
  contents demo_exchanged = []
  ∧ pull demo_exchanged = Ok None demo_exchanged
  ∧ ∃ σ2, store_next 1%N 2%N demo_exchanged = Ok tt σ2
      ∧ push 7%Z demo_fresh = Ok tt σ2
      ∧ contents σ2 = [7%Z].
Proof.
  destruct (publication_gap demo_fresh demo_exchanged 7%Z 1%N 2%N
              demo_fresh_reachable demo_exchanged_run) as (Hsame & Hpull & Hlink).
  split; [exact Hsame|]. split; [exact (Hpull demo_fresh_drained)|exact Hlink].
Defined.

(** Under [demo_sched] the consumer has obtained 1 so far. *)
Lemma pulled_within_pushed_witness :
  pulled demo_threads ⊆+ [10; 20; 1; 2]%Z.
Proof.
  exact (pulled_within_pushed (arena_new 8) demo_fresh demo_shared demo_progs
           demo_sched demo_threads demo_fresh_run demo_concurrent_run).
Defined.

(** Producer 1 pushes 1, 2; the consumer has obtained its 1 so far. *)
Lemma producer_order_preserved_witness :
  of_producer demo_owner 1 (pulled demo_threads) `prefix_of` [1; 2]%Z.
Proof.
  exact (producer_order_preserved demo_owner (arena_new 8) demo_fresh demo_shared
           demo_progs demo_sched demo_threads 1 [1; 2]%Z
           demo_tagged demo_fresh_run demo_concurrent_run eq_refl).
Defined.

(** After the final drain the consumer holds 10, 20 of producer 0 and 1, 2
    of producer 1, each in the order pushed. *)
Lemma producer_order_complete_witness :
  ∃ c' σ', final_drain demo_threads demo_shared = Ok c' σ'
    ∧ ∀ i vs, demo_progs !! i = Some vs
        → of_producer demo_owner i (pulled c') = vs.
Proof.
  exact (producer_order_complete demo_owner (arena_new 8) demo_fresh demo_shared
           demo_progs demo_sched demo_threads
           demo_tagged demo_fresh_run demo_concurrent_run demo_quiescent).
Defined.

(** Three blocks given back at once at address 4096 come back 64 bytes
    apart, although a block has 1024 bytes. *)
Lemma slab_frees_runs_bytewise_witness :
  slab_allocate_n (params:=demo_slab) 3
    (slab_deallocate (params:=demo_slab) 4096%N 3%N slab_new)
  = Some ([4224; 4160; 4096]%N, slab_new)
  ∧ (4096 < 4096 + 64 < 4096 + 1024)%N.
Proof.
  destruct (slab_frees_runs_bytewise (params:=demo_slab) 4096%N 3%N slab_new)
    as [Hrun Hinside]; [done|done|].
  split; [exact Hrun|]. apply Hinside; done.
Defined.


(** 126 single allocations fill the first 63 blocks of two pools. *)
Lemma slab_serves_pools_one_short_witness :
  ∃ s', slab_allocate_n (params:=demo_slab) 126 slab_new
        = Some (seq 0 2 ≫= (λ k, (λ b, block_address (params:=demo_slab) k (N.of_nat b))
                                   <$> seq 0 63), s')
    ∧ m_pools s' = [4096; 69632]%N.
Proof.
  apply (slab_serves_pools_one_short (params:=demo_slab) 2); done.
Defined.

(** With block 5120 held and block 4096 given back, the next allocation
    is served. *)
Lemma slab_never_hands_out_a_held_block_witness :
  ∃ p s', slab_allocate (params:=demo_slab) 1%N demo_slab_state = Some (p, s')
    ∧ p ≠ nullptr ∧ (p ∉ demo_slab_held)
    ∧ slab_serves (params:=demo_slab) s' ({[p]} ∪ demo_slab_held).
Proof.
  apply (slab_never_hands_out_a_held_block (params:=demo_slab)).
  - exact demo_static_assert.
  - done.
  - done.
  - exact demo_pools_apart.
  - exact demo_slab_serves.
Defined.
